(** * APDde: stereo disparity / detection fusion loop (APDde.py)

    A shallow embedding of the host-side loop of [APDde.py]: the uint8
    normalisation of the disparity frame, the masked depth division, the
    bounding-box denormalisation [frameNorm], the per-detection overlay and
    the polling loop with its quit check.

    Numbers.  Python and NumPy compute on binary64 floats.  A finite float
    is the rational it denotes, so float values are [Q]; every float
    operation is the exact operation followed by a rounding [rnd : Q -> Q],
    which is a variable of the development.  What is assumed of [rnd] is the
    standard model of floating point arithmetic, for binary64 with an
    unbounded exponent range: it is monotone, it leaves the representable
    numbers [m / 2^k] ([|m| <= 2^53]) alone and its relative error is at most
    the unit roundoff [2^-53].  Rounding to the nearest binary64 number with
    ties to even, [Fl.binary64], is defined on [Q] and proved to satisfy
    this model; the evaluations on concrete inputs use it.  The results of a
    division by zero ([inf], [nan]) are explicit constructors of
    [np_float].

    Effects.  The loop body is written in a state-and-exception monad over
    the Python variables of the script and a log of the calls made to the
    collaborators (file, window, console).  An exception keeps the effects
    performed before it was raised.  [cv2.rectangle] and [cv2.putText] draw
    in place: they repaint pixels of the buffer held by [frameDisparity]. *)

From Stdlib Require Import ZArith QArith Qround Qabs Qminmax Qpower Lqa Lia.
From stdpp Require Import base decidable option list strings pretty.

Local Open Scope Z_scope.

(** ** Floats as rationals *)

Module Fl.

(** Unit roundoff of binary64. *)
Definition eps : Q := 1 # (2 ^ 53).

(** [int(x)] and [astype(int)]: truncation toward zero. *)
Definition Qtrunc (q : Q) : Z := Z.quot (Qnum q) (Zpos (Qden q)).

(** [np.clip(x, lo, hi)] on one element. *)
Definition clip (x lo hi : Q) : Q := Qmin (Qmax x lo) hi.

(** The standard model of floating point arithmetic. *)
Record standard_model (rnd : Q -> Q) : Prop := {
  rnd_mono : forall x y, (x <= y)%Q -> (rnd x <= rnd y)%Q;
  rnd_repr : forall m k : Z, Z.abs m <= 2 ^ 53 -> 0 <= k <= 1074 ->
    (rnd (inject_Z m / inject_Z (2 ^ k)) == inject_Z m / inject_Z (2 ^ k))%Q;
  rnd_err : forall x, (Qabs (rnd x - x) <= eps * Qabs x)%Q
}.

(** Values of a NumPy float array: a finite float, or what a division by
    zero leaves behind. *)
Inductive np_float : Type :=
  | Finite (q : Q)
  | PosInf
  | NegInf
  | NaN.

(** Python's round-half-even on the exact value, as used by [format]. *)
Definition round_half_even (q : Q) : Z :=
  let f := Qfloor q in
  match (q - inject_Z f ?= 1 # 2)%Q with
  | Lt => f
  | Gt => f + 1
  | Eq => if Z.even f then f else f + 1
  end.

(** Rounding to the nearest binary64 number, ties to even, with an unbounded
    exponent range: a positive [q] is written [m * 2^e] with
    [2^52 <= m < 2^53], and [m] is rounded to an integer. *)
Definition pow2 (e : Z) : Q := (2 ^ e)%Q.

Definition exponent (q : Q) : Z :=
  let e0 := Z.log2 (Qnum q) - Z.log2 (Zpos (Qden q)) - 53 in
  if Qlt_le_dec (q / pow2 e0) (pow2 53) then e0 else e0 + 1.

Definition nearest (q : Q) : Q :=
  let e := exponent q in (inject_Z (round_half_even (q / pow2 e)) * pow2 e)%Q.

Definition binary64 (q : Q) : Q :=
  match (q ?= 0)%Q with
  | Eq => 0%Q
  | Gt => nearest q
  | Lt => (- nearest (- q))%Q
  end.

Definition two_digits (n : Z) : string :=
  if n <? 10 then "0" +:+ pretty n else pretty n.

(** [f"{v:.2f}"]. *)
Definition format_2f (v : np_float) : string :=
  match v with
  | Finite q =>
      let n := round_half_even (Qabs q * 100) in
      (if Qlt_le_dec q 0 then "-" else "")
        +:+ pretty (n / 100) +:+ "." +:+ two_digits (n mod 100)
  | PosInf => "inf"
  | NegInf => "-inf"
  | NaN => "nan"
  end.

End Fl.

(** ** Python containers *)

(** [l[i]] on a list or along one axis of an array: a negative index counts
    from the end, an index out of range raises [IndexError] ([None]). *)
Definition py_getitem {A} (l : list A) (i : Z) : option A :=
  let n := Z.of_nat (length l) in
  if (0 <=? i) && (i <? n) then l !! Z.to_nat i
  else if (- n <=? i) && (i <? 0) then l !! Z.to_nat (n + i)
  else None.

(** [a[r, c]] on a two-dimensional array. *)
Definition py_getitem2 {A} (a : list (list A)) (r c : Z) : option A :=
  row ← py_getitem a r; py_getitem row c.

(** An operation applied to every sample of a two-dimensional array. *)
Definition elementwise {A B} (f : A -> B) (a : list (list A)) : list (list B) :=
  fmap (M:=list) (fmap (M:=list) f) a.

(** The sample at row [r], column [c], when there is one. *)
Definition pixel {A} (a : list (list A)) (r c : nat) : option A :=
  row ← a !! r; row !! c.

(** ** Data *)

(** A BGR pixel. *)
Abbreviation color := (Z * Z * Z)%type.

(** A colour image, as rows of pixels; a point [(x, y)] is column [x] of
    row [y]. *)
Abbreviation image := (list (list color)).

(** One frame of integer samples (mono frame, raw or uint8 disparity). *)
Abbreviation gray := (list (list Z)).

Abbreviation point := (Z * Z)%type.

Record Detection : Type := {
  label : Z;
  confidence : Q;
  xmin : Q;
  ymin : Q;
  xmax : Q;
  ymax : Q
}.

(** [depth_calculated] is the integer [0] until the first disparity frame
    has been converted, and a float array afterwards. *)
Inductive depth_t : Type :=
  | DepthInit
  | DepthArr (a : list (list Fl.np_float)).

(** The variables of the script that the loop reads and assigns. *)
Record Vars : Type := {
  frame : option gray;
  frameManip : option gray;
  frameDisparity : option image;
  detections : list Detection;
  depth_calculated : depth_t
}.

(** Calls to the collaborators, in program order. *)
Inductive event : Type :=
  | FileOpen
  | FileWrite (data : list Z)
  | FileClose
  | NamedWindow
  | Rectangle (pt1 pt2 : point)
  | PutText (text : string) (org : point)
  | Imshow (img : image)
  | Print (line : string).

Inductive exn : Type :=
  | IndexError
  | TypeError.

Inductive outcome (A : Type) : Type :=
  | Ok (a : A)
  | Raise (e : exn).
Arguments Ok {A} a.
Arguments Raise {A} e.

Record world : Type := {
  vars : Vars;
  log : list event
}.

(** ** The monad of the loop body *)

Definition M (A : Type) : Type := world -> outcome A * world.

#[global] Instance M_ret : MRet M := fun A a w => (Ok a, w).
#[global] Instance M_bind : MBind M := fun A B k m w =>
  match m w with
  | (Ok a, w') => k a w'
  | (Raise e, w') => (Raise e, w')
  end.

Definition raise {A} (e : exn) : M A := fun w => (Raise e, w).

Definition get_vars : M Vars := fun w => (Ok (vars w), w).

Definition set_vars (f : Vars -> Vars) : M unit :=
  fun w => (Ok tt, {| vars := f (vars w); log := log w |}).

Definition emit (e : event) : M unit :=
  fun w => (Ok tt, {| vars := vars w; log := log w ++ [e] |}).

Definition lift_index {A} (o : option A) : M A :=
  match o with Some a => mret a | None => raise IndexError end.

Fixpoint for_each {A} (l : list A) (body : A -> M unit) : M unit :=
  match l with
  | [] => mret tt
  | a :: l' => body a;; for_each l' body
  end.

Definition set_frame (v : option gray) (s : Vars) : Vars :=
  {| frame := v; frameManip := frameManip s; frameDisparity := frameDisparity s;
     detections := detections s; depth_calculated := depth_calculated s |}.
Definition set_frameManip (v : option gray) (s : Vars) : Vars :=
  {| frame := frame s; frameManip := v; frameDisparity := frameDisparity s;
     detections := detections s; depth_calculated := depth_calculated s |}.
Definition set_frameDisparity (v : option image) (s : Vars) : Vars :=
  {| frame := frame s; frameManip := frameManip s; frameDisparity := v;
     detections := detections s; depth_calculated := depth_calculated s |}.
Definition set_detections (v : list Detection) (s : Vars) : Vars :=
  {| frame := frame s; frameManip := frameManip s; frameDisparity := frameDisparity s;
     detections := v; depth_calculated := depth_calculated s |}.
Definition set_depth_calculated (v : depth_t) (s : Vars) : Vars :=
  {| frame := frame s; frameManip := frameManip s; frameDisparity := frameDisparity s;
     detections := detections s; depth_calculated := v |}.

(** ** Constants of the script *)

Definition labelMap : list string :=
  ["background"; "aeroplane"; "bicycle"; "bird"; "boat"; "bottle"; "bus"; "car";
   "cat"; "chair"; "cow"; "diningtable"; "dog"; "horse"; "motorbike"; "person";
   "pottedplant"; "sheep"; "sofa"; "train"; "tvmonitor"].

Definition includedLabels : list string :=
  ["person"; "car"; "motorbike"; "bicycle"; "bus"; "aeroplane"; "background"; "train"].

(** [color = (0, 255, 0)]. *)
Definition green : color := (0, 255, 0).

(** [ord('q')]. *)
Definition ord_q : Z := 113.

(** Drawing with one solid colour: the pixels of [pts] that lie inside the
    image take the colour, the others keep theirs. *)
Definition covers (pts : list point) (x y : Z) : bool :=
  existsb (fun p => (p.1 =? x) && (p.2 =? y)) pts.

(** A map that also sees the position, counted from [i]. *)
Fixpoint map_at {A B} (f : Z -> A -> B) (i : Z) (l : list A) : list B :=
  match l with
  | [] => []
  | a :: l' => f i a :: map_at f (i + 1) l'
  end.

Definition paint (c : color) (pts : list point) (img : image) : image :=
  map_at (fun y row =>
    map_at (fun x p => if covers pts x y then c else p) 0 row) 0 img.

(** The effect of a sequence of calls, each with the pixels it paints: the
    buffer [frameDisparity] refers to is repainted, the calls are logged. *)
Definition annotate (calls : list (event * list point)) (w : world) : world :=
  {| vars :=
       match frameDisparity (vars w) with
       | Some img =>
           set_frameDisparity (Some (paint green (concat (calls.*2)) img)) (vars w)
       | None => vars w
       end;
     log := log w ++ calls.*1 |}.

(** ** The script *)

Section Script.

(** Float rounding. *)
Variable rnd : Q -> Q.

(** What the device and the libraries supply: [getMaxDisparity()], the
    top-left entry of the intrinsic matrix, the resolution of the mono
    camera, OpenCV's JET colour table and OpenCV's rasteriser (the pixels
    covered by a rectangle outline of a given thickness and by a text at a
    given origin). *)
Variable maxDisparity : Q.
Variable focal_length : Q.
Variable resolutionWidth resolutionHeight : Z.
Variable colormap_jet : Z -> color.
Variable rectangle_pixels : point -> point -> Z -> list point.
Variable text_pixels : string -> point -> list point.

(** [baseline = 0.075]. *)
Definition baseline : Q := rnd (75 # 1000).

(** [disparityMultiplier = 255 / depth.initialConfig.getMaxDisparity()]. *)
Definition disparityMultiplier : Q := rnd (255 / maxDisparity).

(** [.astype(np.uint8)] of a float: truncation, then the low eight bits
    (the C conversion NumPy performs; a value past 255 wraps around). *)
Definition astype_uint8 (q : Q) : Z := Fl.Qtrunc q mod 256.

(** One sample of [(frameDisparity*disparityMultiplier).astype(np.uint8)]. *)
Definition normalize (raw : Z) : Z :=
  astype_uint8 (rnd (inject_Z raw * disparityMultiplier)).

(** One sample of [x / frameDisparity] under
    [np.errstate(divide='ignore', invalid='ignore')]. *)
Definition np_divide (x : Q) (n : Z) : Fl.np_float :=
  if n =? 0 then
    match (x ?= 0)%Q with
    | Gt => Fl.PosInf
    | Lt => Fl.NegInf
    | Eq => Fl.NaN
    end
  else Fl.Finite (rnd (x / inject_Z n)).

(** Lines 134-135: the division over the whole array, then
    [depth_calculated[frameDisparity == 0] = 0]. *)
Definition depth_of (fd : gray) : list (list Fl.np_float) :=
  let d := elementwise (np_divide (rnd (focal_length * baseline))) fd in
  zip_with (zip_with (fun n v => if n =? 0 then Fl.Finite 0 else v)) fd d.

(** The same two lines on a single sample. *)
Definition depth_sample (n : Z) : Fl.np_float :=
  let v := np_divide (rnd (focal_length * baseline)) n in
  if n =? 0 then Fl.Finite 0 else v.

(** [cv2.applyColorMap(frameDisparity, cv2.COLORMAP_JET)]. *)
Definition applyColorMap (fd : gray) : image := elementwise colormap_jet fd.

(** [offsetX], with Python's floor division. *)
Definition offsetX : Z := (resolutionWidth - resolutionHeight) / 2.

(** [croppedFrame.shape]. *)
Definition croppedFrame_shape : Z * Z := (resolutionHeight, resolutionHeight).

(** [frameNorm(frame, bbox)], from the shape of [frame]. *)
Definition frameNorm (shape : Z * Z) (bbox : list Q) : list Z :=
  let normVals :=
    imap (fun i v => if Nat.even i then shape.2 else v)
         (replicate (length bbox) shape.1) in
  zip_with (fun v n => Fl.Qtrunc (rnd (Fl.clip v 0 1 * inject_Z n))) bbox normVals.

(** [bbox[::2] += offsetX]. *)
Definition add_even (k : Z) (bbox : list Z) : list Z :=
  imap (fun i v => if Nat.even i then v + k else v) bbox.

(** [int((a + b) / 2)]: the true division is exact on these integers, and
    [int] truncates. *)
Definition int_half (s : Z) : Z := Z.quot s 2.

(** [int(detection.confidence * 100)]. *)
Definition percent (d : Detection) : Z :=
  Fl.Qtrunc (rnd (confidence d * 100)).

(** Drawing calls: logged, and painted on the buffer [frameDisparity]
    refers to. *)
Definition draw (e : event) (pts : list point) : M unit :=
  s ← get_vars;
  match frameDisparity s with
  | Some img =>
      set_vars (set_frameDisparity (Some (paint green pts img)));; emit e
  | None => raise TypeError
  end.

Definition cv2_rectangle (pt1 pt2 : point) (thickness : Z) : M unit :=
  draw (Rectangle pt1 pt2) (rectangle_pixels pt1 pt2 thickness).

Definition cv2_putText (text : string) (org : point) : M unit :=
  draw (PutText text org) (text_pixels text org).

(** [depth_calculated[center_y, center_x]]. *)
Definition depth_at (center_y center_x : Z) : M Fl.np_float :=
  s ← get_vars;
  match depth_calculated s with
  | DepthArr a => lift_index (py_getitem2 a center_y center_x)
  | DepthInit => raise TypeError
  end.

Definition observability_line (name : string) (depth_value : Fl.np_float)
    (pct : Z) : string :=
  "Item Classification: " +:+ name +:+ ", Distance: "
    +:+ Fl.format_2f depth_value +:+ "m, Confidence: " +:+ pretty pct +:+ "%".

(** Lines 144-145: [bbox] once the offset is added. *)
Definition pixel_box (detection : Detection) : list Z :=
  let bbox := frameNorm croppedFrame_shape
                [xmin detection; ymin detection; xmax detection; ymax detection] in
  add_even offsetX bbox.

(** Lines 143-153: the body of [for detection in detections]. *)
Definition render_detection (detection : Detection) : M unit :=
  name ← lift_index (py_getitem labelMap (label detection));
  if bool_decide (name ∈ includedLabels) then
    match pixel_box detection with
    | [b0; b1; b2; b3] =>
        cv2_rectangle (b0, b1) (b2, b3) 2;;
        name ← lift_index (py_getitem labelMap (label detection));
        cv2_putText name (b0 + 10, b1 + 20);;
        cv2_putText (pretty (percent detection) +:+ "%") (b0 + 10, b1 + 40);;
        let center_x := int_half (b0 + b2) in
        let center_y := int_half (b1 + b3) in
        depth_value ← depth_at center_y center_x;
        cv2_putText (Fl.format_2f depth_value +:+ "m") (b0 + 10, b1 + 60);;
        name ← lift_index (py_getitem labelMap (label detection));
        emit (Print (observability_line name depth_value (percent detection)))
    | _ => raise IndexError
    end
  else mret tt.

(** A summary of [render_detection]: its outcome and the calls it makes,
    each with the pixels it paints, from the detection and the depth map
    alone.  It is proved below to be what [render_detection] does. *)
Definition overlay (dc : depth_t) (d : Detection)
    : outcome unit * list (event * list point) :=
  match py_getitem labelMap (label d) with
  | None => (Raise IndexError, [])
  | Some name =>
      if bool_decide (name ∈ includedLabels) then
        match pixel_box d with
        | [b0; b1; b2; b3] =>
            let pct := pretty (percent d) +:+ "%" in
            let head :=
              [(Rectangle (b0, b1) (b2, b3), rectangle_pixels (b0, b1) (b2, b3) 2);
               (PutText name (b0 + 10, b1 + 20), text_pixels name (b0 + 10, b1 + 20));
               (PutText pct (b0 + 10, b1 + 40), text_pixels pct (b0 + 10, b1 + 40))] in
            match dc with
            | DepthInit => (Raise TypeError, head)
            | DepthArr a =>
                match py_getitem2 a (int_half (b1 + b3)) (int_half (b0 + b2)) with
                | None => (Raise IndexError, head)
                | Some depth_value =>
                    let dist := Fl.format_2f depth_value +:+ "m" in
                    (Ok tt,
                     head ++
                     [(PutText dist (b0 + 10, b1 + 60), text_pixels dist (b0 + 10, b1 + 60));
                      (Print (observability_line name depth_value (percent d)), [])])
                end
            end
        | _ => (Raise IndexError, [])
        end
      else (Ok tt, [])
  end.

(** The same for the whole [for] loop, which stops at the first exception. *)
Fixpoint overlays (dc : depth_t) (ds : list Detection)
    : outcome unit * list (event * list point) :=
  match ds with
  | [] => (Ok tt, [])
  | d :: ds' =>
      match overlay dc d with
      | (Ok _, calls) => let (o, calls') := overlays dc ds' in (o, calls ++ calls')
      | (Raise e, calls) => (Raise e, calls)
      end
  end.

(** What one iteration reads: the four [tryGet] results, the packets the
    encoder queue holds while it is drained, and the key [cv2.waitKey]
    returns. *)
Record TickIn : Type := {
  inRight : option gray;
  inManip : option gray;
  inDet : option (list Detection);
  inDisparity : option gray;
  h265 : list (list Z);
  waitKey : Z
}.

(** Lines 115-139. *)
Definition poll (i : TickIn) : M unit :=
  for_each (h265 i) (fun data => emit (FileWrite data));;
  match inRight i with
  | Some f => set_vars (set_frame (Some f))
  | None => mret tt
  end;;
  match inManip i with
  | Some f => set_vars (set_frameManip (Some f))
  | None => mret tt
  end;;
  match inDisparity i with
  | Some raw =>
      let fd := elementwise normalize raw in
      set_vars (set_depth_calculated (DepthArr (depth_of fd)));;
      set_vars (set_frameDisparity (Some (applyColorMap fd)))
  | None => mret tt
  end;;
  match inDet i with
  | Some ds => set_vars (set_detections ds)
  | None => mret tt
  end.

(** Lines 141-155. *)
Definition render : M unit :=
  s ← get_vars;
  match frameDisparity s with
  | Some _ =>
      for_each (detections s) render_detection;;
      s ← get_vars;
      match frameDisparity s with
      | Some img => emit (Imshow img)
      | None => raise TypeError
      end
  | None => mret tt
  end.

(** One iteration of [while True]; the result says whether [break] was
    taken. *)
Definition tick (i : TickIn) : M bool :=
  poll i;;
  render;;
  mret (waitKey i =? ord_q).

(** The loop over the readings of successive iterations.  [true]: the loop
    was left by [break]; [false]: the readings are used up and the loop is
    still running. *)
Fixpoint loop (ins : list TickIn) : M bool :=
  match ins with
  | [] => mret false
  | i :: rest => tick i ≫= fun q : bool => if q then mret true else loop rest
  end.

(** Lines 98-101. *)
Definition initial_vars : Vars :=
  {| frame := None; frameManip := None; frameDisparity := None;
     detections := []; depth_calculated := DepthInit |}.

Definition initial_world : world := {| vars := initial_vars; log := [] |}.

(** Lines 111-162: the file is opened, the window created, the loop runs,
    and the two closing messages are printed once the loop is left. *)
Definition main (ins : list TickIn) : M bool :=
  emit FileOpen;;
  emit NamedWindow;;
  loop ins ≫= fun q : bool =>
  if q then
    emit (Print "To view the encoded data, convert the stream file (.h265) into a video file (.mp4) using a command below:");;
    emit (Print "ffmpeg -framerate 30 -i video.h265 -c copy video.mp4");;
    mret true
  else mret false.

End Script.

(** ** The specification's normalisation, for comparison *)

(** Section 4.2, step 2, in the specification's words:
    [clamp(round(raw * multiplier), 0, 255)] with
    [multiplier = 255 / maxDisparity]. *)
Definition spec_normalizedDisparity (maxDisparity : Q) (raw : Z) : Z :=
  Z.max 0 (Z.min 255 (Fl.round_half_even (inject_Z raw * (255 / maxDisparity)))).

(** ** Observers of the log *)

Definition is_close (e : event) : bool :=
  match e with FileClose => true | _ => false end.

(** Conversion, fusion or rendering leaves one of these in the log. *)
Definition is_render (e : event) : bool :=
  match e with
  | Rectangle _ _ | PutText _ _ | Imshow _ | Print _ => true
  | _ => false
  end.

Definition count (f : event -> bool) (l : list event) : nat :=
  length (filter (fun e => f e = true) l).

(** An action that, whatever the state, only adds events satisfying [P] to
    the log. *)
Definition appends (P : event -> Prop) {A} (m : M A) : Prop :=
  forall w, exists evs, log (m w).2 = log w ++ evs /\ Forall P evs.

(** The test of line 143 on a label: [labelMap[label] in includedLabels],
    false also where the lookup raises. *)
Definition label_allowed (l : Z) : bool :=
  match py_getitem labelMap l with
  | Some name => bool_decide (name ∈ includedLabels)
  | None => false
  end.

(** A detection that rendering can handle on a depth map of [height] rows:
    its label indexes [labelMap], and if it is allowed the two y coordinates
    of its pixel box are not both on the bottom edge. *)
Definition safe_detection (rnd : Q -> Q) (width height : Z) (d : Detection) : bool :=
  (-21 <=? label d) && (label d <=? 20) &&
  (negb (label_allowed (label d)) ||
   match pixel_box rnd width height d with
   | [_; b1; _; b3] => negb ((b1 =? height) && (b3 =? height))
   | _ => false
   end).

(** The packets written to the file, in the order of the log. *)
Definition writes_of (l : list event) : list (list Z) :=
  omap (fun e => match e with FileWrite data => Some data | _ => None end) l.

(** The frames shown in the window, in the order of the log. *)
Definition shown_of (l : list event) : list image :=
  omap (fun e => match e with Imshow img => Some img | _ => None end) l.

(** What rendering can leave in the log: a drawing call, a shown frame, or a
    printed line made by [observability_line]. *)
Definition rendering_event (e : event) : Prop :=
  match e with
  | Rectangle _ _ | PutText _ _ | Imshow _ => True
  | Print line => exists name depth_value pct, line = observability_line name depth_value pct
  | _ => False
  end.

(** An array of [rows] rows of [cols] samples each. *)
Definition sensor_shaped {A} (rows cols : Z) (a : list (list A)) : Prop :=
  Z.of_nat (length a) = rows /\ Forall (fun row => Z.of_nat (length row) = cols) a.

(** The shape of a two-dimensional array: the length of each row. *)
Definition row_lengths {A} (a : list (list A)) : list nat := length <$> a.

(** [frameDisparity] and [depth_calculated] go together: both are still
    unset, or both are arrays of the same shape. *)
Definition coherent (s : Vars) : Prop :=
  match frameDisparity s, depth_calculated s with
  | None, DepthInit => True
  | Some img, DepthArr a => row_lengths img = row_lengths a
  | _, _ => False
  end.

(** ** A concrete configuration *)

Module Oak.

(** The mono cameras at [THE_400_P]. *)
Definition width : Z := 640.
Definition height : Z := 400.

(** A rasteriser that paints no more than OpenCV's does: the four corners of
    a rectangle, and nothing for a text.  All drawing uses one colour, so a
    pixel that this rasteriser turns green is green in OpenCV's buffer
    too. *)
Definition corner_pixels (pt1 pt2 : point) (thickness : Z) : list point :=
  [pt1; (pt2.1, pt1.2); (pt1.1, pt2.2); pt2].

Definition no_pixels (text : string) (org : point) : list point := [].

(** A colour table; only its type matters where it is used. *)
Definition gray_table (v : Z) : color := (v, v, v).

Definition person (conf x0 y0 x1 y1 : Q) : Detection :=
  {| label := 15; confidence := conf;
     xmin := x0; ymin := y0; xmax := x1; ymax := y1 |}.

(** The variables just after a first disparity frame of the sensor's size
    was converted: a colourised buffer and a depth map of 400 rows of 640
    samples. *)
Definition after_first_frame (px : color) (d : Fl.np_float)
    (dets : list Detection) : world :=
  {| vars := {| frame := None; frameManip := None;
                frameDisparity := Some (replicate 400 (replicate 640 px));
                detections := dets;
                depth_calculated := DepthArr (replicate 400 (replicate 640 d)) |};
     log := [] |}.

(** An iteration that receives a disparity frame of the sensor's size (all
    samples [raw]) and one detection, with no key pressed. *)
Definition frame_tick (raw : Z) (d : Detection) : TickIn :=
  {| inRight := None; inManip := None; inDet := Some [d];
     inDisparity := Some (replicate 400 (replicate 640 raw));
     h265 := [[0; 0; 0; 1]]; waitKey := -1 |}.

(** An iteration in which no queue has anything and [q] is pressed. *)
Definition quit_tick : TickIn :=
  {| inRight := None; inManip := None; inDet := None; inDisparity := None;
     h265 := []; waitKey := ord_q |}.

End Oak.

(** Proves a conjunction of closed equations, each by evaluation. *)
Ltac evaluate :=
  intros;
  lazymatch goal with
  | |- _ /\ _ => split; evaluate
  | |- _ => vm_compute; reflexivity
  end.

(** Splits a membership in an explicit list into its cases. *)
Ltac in_cases H :=
  repeat (apply elem_of_cons in H as [H|H]);
  try (apply elem_of_nil in H; contradiction).

(** Turns the unit roundoff into a numeral, for [lra]. *)
Ltac eps_numeral :=
  let e := eval vm_compute in Fl.eps in change Fl.eps with e in *.

(** * Facts *)

(** ** Rounding and truncation *)

Section RoundingFacts.

Variable rnd : Q -> Q.
Hypothesis Hrnd : Fl.standard_model rnd.

Lemma rnd_proper x y : (x == y)%Q -> (rnd x == rnd y)%Q.
Proof.
  intros E. apply Qle_antisym; apply (Fl.rnd_mono _ Hrnd); rewrite E; apply Qle_refl.
Qed.

Lemma rnd_int (z : Z) : Z.abs z <= 2 ^ 53 -> (rnd (inject_Z z) == inject_Z z)%Q.
Proof.
  intros Hz. pose proof (Fl.rnd_repr _ Hrnd z 0 Hz ltac:(lia)) as H.
  change (inject_Z (2 ^ 0)) with 1%Q in H.
  assert (inject_Z z == inject_Z z / 1)%Q as E by (field).
  rewrite (rnd_proper _ _ E), H. symmetry. exact E.
Qed.

Lemma rnd_nonneg x : (0 <= x)%Q -> (0 <= rnd x)%Q.
Proof.
  intros Hx. rewrite <- (rnd_int 0) by (cbn; lia).
  now apply (Fl.rnd_mono _ Hrnd).
Qed.

Lemma rnd_bounds x :
  (0 <= x)%Q -> (x * (1 - Fl.eps) <= rnd x /\ rnd x <= x * (1 + Fl.eps))%Q.
Proof.
  intros Hx. pose proof (Fl.rnd_err _ Hrnd x) as E.
  rewrite (Qabs_pos x Hx) in E.
  apply Qabs_Qle_condition in E. lra.
Qed.

Lemma rnd_pos x : (0 < x)%Q -> (0 < rnd x)%Q.
Proof.
  intros Hx. destruct (rnd_bounds x) as [L _]; [lra|].
  assert (0 < x * (1 - Fl.eps))%Q; [|lra].
  apply Qmult_lt_0_compat; [assumption | reflexivity].
Qed.

End RoundingFacts.

Lemma Qtrunc_floor q : (0 <= q)%Q -> Fl.Qtrunc q = Qfloor q.
Proof.
  destruct q as [n d]. unfold Qle, Fl.Qtrunc, Qfloor. simpl. intros H.
  apply Z.quot_div_nonneg; lia.
Qed.

Lemma Qtrunc_bounds q :
  (0 <= q)%Q ->
  0 <= Fl.Qtrunc q /\ (inject_Z (Fl.Qtrunc q) <= q)%Q /\ (q < inject_Z (Fl.Qtrunc q + 1))%Q.
Proof.
  intros H. rewrite (Qtrunc_floor q H). repeat split.
  - rewrite <- (Qfloor_Z 0). now apply Qfloor_resp_le.
  - apply Qfloor_le.
  - apply Qlt_floor.
Qed.

Lemma Qtrunc_mono x y : (0 <= x)%Q -> (x <= y)%Q -> Fl.Qtrunc x <= Fl.Qtrunc y.
Proof.
  intros Hx Hxy. rewrite !Qtrunc_floor by lra. now apply Qfloor_resp_le.
Qed.

Lemma Qtrunc_le_int q (z : Z) : (0 <= q)%Q -> (q <= inject_Z z)%Q -> Fl.Qtrunc q <= z.
Proof.
  intros Hq Hz. rewrite <- (Qfloor_Z z), Qtrunc_floor by assumption.
  now apply Qfloor_resp_le.
Qed.

Lemma Qtrunc_lt_int q (z : Z) : (0 <= q)%Q -> (q < inject_Z z)%Q -> Fl.Qtrunc q < z.
Proof.
  intros Hq Hz. destruct (Qtrunc_bounds q Hq) as (_ & L & _).
  assert (inject_Z (Fl.Qtrunc q) < inject_Z z)%Q as H by lra.
  now rewrite <- Zlt_Qlt in H.
Qed.

Lemma Qtrunc_proper x y : (0 <= x)%Q -> (x == y)%Q -> Fl.Qtrunc x = Fl.Qtrunc y.
Proof.
  intros Hx E. rewrite !Qtrunc_floor by (rewrite <- ?E; assumption).
  now apply Qfloor_comp.
Qed.

Lemma Qtrunc_int (z : Z) : Fl.Qtrunc (inject_Z z) = z.
Proof. unfold Fl.Qtrunc. simpl. apply Z.quot_1_r. Qed.

(** ** Rounding to nearest *)

Lemma pow2_pos e : (0 < Fl.pow2 e)%Q.
Proof. apply Qpower_0_lt. reflexivity. Qed.

Lemma pow2_plus a b : (Fl.pow2 (a + b) == Fl.pow2 a * Fl.pow2 b)%Q.
Proof. apply Qpower_plus. discriminate. Qed.

Lemma pow2_le a b : a <= b -> (Fl.pow2 a <= Fl.pow2 b)%Q.
Proof. intros H. apply Qpower_le_compat_l; [assumption | discriminate]. Qed.

Lemma pow2_inject (k : Z) : 0 <= k -> (Fl.pow2 k == inject_Z (2 ^ k))%Q.
Proof. intros H. unfold Fl.pow2. now rewrite Zpower_Qpower. Qed.

Lemma pow2_succ a : (Fl.pow2 (a + 1) == 2 * Fl.pow2 a)%Q.
Proof. rewrite pow2_plus. change (Fl.pow2 1) with 2%Q. ring. Qed.

Lemma rhe_cases q :
  let f := Qfloor q in
  (inject_Z f <= q /\ q < inject_Z f + 1)%Q /\
  ((q - inject_Z f < 1 # 2)%Q /\ Fl.round_half_even q = f \/
   (q - inject_Z f == 1 # 2)%Q /\ (Fl.round_half_even q = f \/ Fl.round_half_even q = f + 1) \/
   (1 # 2 < q - inject_Z f)%Q /\ Fl.round_half_even q = f + 1).
Proof.
  intros f. split.
  - split; [apply Qfloor_le|]. pose proof (Qlt_floor q) as H. fold f in H.
    rewrite inject_Z_plus in H. exact H.
  - unfold Fl.round_half_even. fold f.
    destruct (q - inject_Z f ?= 1 # 2)%Q eqn:C.
    + apply Qeq_alt in C. right; left. split; [exact C|]. destruct (Z.even f); auto.
    + apply Qlt_alt in C. left. auto.
    + apply Qgt_alt in C. right; right. auto.
Qed.

Lemma rhe_near q : (Qabs (inject_Z (Fl.round_half_even q) - q) <= 1 # 2)%Q.
Proof.
  destruct (rhe_cases q) as ([L U] & [[C E]|[[C [E|E]]|[C E]]]); rewrite E;
    rewrite ?inject_Z_plus; apply Qabs_Qle_condition;
    change (inject_Z 1) with 1%Q; lra.
Qed.

Lemma rhe_proper x y : (x == y)%Q -> Fl.round_half_even x = Fl.round_half_even y.
Proof.
  intros E. unfold Fl.round_half_even. rewrite (Qfloor_comp _ _ E).
  now rewrite E.
Qed.

Lemma rhe_int z : Fl.round_half_even (inject_Z z) = z.
Proof.
  unfold Fl.round_half_even. rewrite Qfloor_Z.
  assert ((inject_Z z - inject_Z z ?= 1 # 2)%Q = Lt) as ->; [|reflexivity].
  apply Qlt_alt. unfold Qminus. rewrite Qplus_opp_r. reflexivity.
Qed.

Lemma rhe_mono x y : (x <= y)%Q -> Fl.round_half_even x <= Fl.round_half_even y.
Proof.
  intros H. pose proof (Qfloor_resp_le _ _ H) as F.
  destruct (rhe_cases x) as ([Lx Ux] & Cx), (rhe_cases y) as ([Ly Uy] & Cy).
  destruct (Z.eq_dec (Qfloor x) (Qfloor y)) as [E|N].
  - unfold Fl.round_half_even. rewrite <- E.
    set (fx := inject_Z (Qfloor x)) in *.
    destruct (x - fx ?= 1 # 2)%Q eqn:C1, (y - fx ?= 1 # 2)%Q eqn:C2;
      repeat match goal with
             | C : (_ ?= _)%Q = Eq |- _ => apply Qeq_alt in C
             | C : (_ ?= _)%Q = Lt |- _ => apply Qlt_alt in C
             | C : (_ ?= _)%Q = Gt |- _ => apply Qgt_alt in C
             end;
      try lia; try (exfalso; lra); destruct (Z.even (Qfloor x)); lia.
  - assert (Qfloor x + 1 <= Qfloor y) by lia.
    destruct Cx as [[_ ->]|[[_ [->| ->]]|[_ ->]]], Cy as [[_ ->]|[[_ [->| ->]]|[_ ->]]]; lia.
Qed.

Lemma Qpos_bracket q :
  (0 < q)%Q ->
  (Fl.pow2 (Z.log2 (Qnum q) - Z.log2 (Zpos (Qden q)) - 1) < q /\
   q < Fl.pow2 (Z.log2 (Qnum q) - Z.log2 (Zpos (Qden q)) + 1))%Q.
Proof.
  intros Hq. destruct q as [n d]. cbn [Qnum Qden].
  assert (0 < n) as Hn by (unfold Qlt in Hq; simpl in Hq; lia).
  pose proof (Z.log2_spec n Hn) as [Na Nb].
  pose proof (Z.log2_spec (Zpos d) ltac:(lia)) as [Da Db].
  pose proof (Z.log2_nonneg n). pose proof (Z.log2_nonneg (Zpos d)).
  set (a := Z.log2 n) in *. set (b := Z.log2 (Zpos d)) in *.
  clearbody a b.
  set (N := inject_Z n). set (D := inject_Z (Zpos d)).
  assert (n # d == N / D)%Q as E by apply Qmake_Qdiv.
  assert (forall k z, 0 <= k -> 2 ^ k <= z -> (Fl.pow2 k <= inject_Z z)%Q) as Lo.
  { intros k z Hk Hz. pose proof (pow2_inject k Hk) as Ek.
    apply Qle_trans with (inject_Z (2 ^ k)); [rewrite Ek; apply Qle_refl|].
    now rewrite <- Zle_Qle. }
  assert (forall k z, 0 <= k -> z < 2 ^ k -> (inject_Z z < Fl.pow2 k)%Q) as Hi.
  { intros k z Hk Hz. pose proof (pow2_inject k Hk) as Ek.
    apply Qlt_le_trans with (inject_Z (2 ^ k)); [|rewrite Ek; apply Qle_refl].
    now rewrite <- Zlt_Qlt. }
  assert (Fl.pow2 a <= N)%Q as N1 by (apply Lo; lia).
  assert (N < Fl.pow2 (a + 1))%Q as N2
    by (apply Hi; [lia | replace (a + 1) with (Z.succ a) by lia; assumption]).
  assert (Fl.pow2 b <= D)%Q as D1 by (apply Lo; lia).
  assert (D < Fl.pow2 (b + 1))%Q as D2
    by (apply Hi; [lia | replace (b + 1) with (Z.succ b) by lia; assumption]).
  pose proof (pow2_pos b) as Pb.
  assert (0 < D)%Q as PD by lra.
  rewrite E. split.
  - apply Qlt_shift_div_l; [assumption|].
    apply Qlt_le_trans with (Fl.pow2 (a - b - 1) * Fl.pow2 (b + 1))%Q.
    + apply Qmult_lt_l; [apply pow2_pos | assumption].
    + rewrite <- pow2_plus. replace (a - b - 1 + (b + 1)) with a by lia. assumption.
  - apply Qlt_shift_div_r; [assumption|].
    apply Qlt_le_trans with (Fl.pow2 (a + 1)); [assumption|].
    replace (a + 1) with (a - b + 1 + b) by lia. rewrite pow2_plus.
    apply Qmult_le_l; [apply pow2_pos | assumption].
Qed.

Lemma exponent_spec q :
  (0 < q)%Q ->
  (Fl.pow2 (52 + Fl.exponent q) <= q /\ q < Fl.pow2 (53 + Fl.exponent q))%Q.
Proof.
  intros Hq. pose proof (Qpos_bracket q Hq) as [L U].
  unfold Fl.exponent.
  set (e0 := Z.log2 (Qnum q) - Z.log2 (Zpos (Qden q)) - 53) in *.
  replace (Z.log2 (Qnum q) - Z.log2 (Zpos (Qden q)) - 1) with (52 + e0) in L by lia.
  replace (Z.log2 (Qnum q) - Z.log2 (Zpos (Qden q)) + 1) with (53 + e0 + 1) in U by lia.
  pose proof (pow2_pos e0) as P0.
  assert (q == q / Fl.pow2 e0 * Fl.pow2 e0)%Q as Eq by (field; lra).
  destruct (Qlt_le_dec (q / Fl.pow2 e0) (Fl.pow2 53)) as [C|C].
  - split; [lra|].
    rewrite pow2_plus, Eq. apply Qmult_lt_r; assumption.
  - split.
    + replace (52 + (e0 + 1)) with (53 + e0) by lia.
      rewrite pow2_plus, Eq. apply Qmult_le_r; assumption.
    + replace (53 + (e0 + 1)) with (53 + e0 + 1) by lia. exact U.
Qed.

Lemma pow2_lt_inv a b : (Fl.pow2 a < Fl.pow2 b)%Q -> a < b.
Proof.
  intros H. destruct (Z.lt_ge_cases a b) as [|G]; [assumption|].
  pose proof (pow2_le b a G). lra.
Qed.

Lemma exponent_mono x y : (0 < x)%Q -> (x <= y)%Q -> Fl.exponent x <= Fl.exponent y.
Proof.
  intros Hx Hxy.
  destruct (exponent_spec x Hx) as [Lx _].
  destruct (exponent_spec y ltac:(lra)) as [_ Uy].
  assert (Fl.pow2 (52 + Fl.exponent x) < Fl.pow2 (53 + Fl.exponent y))%Q as H by lra.
  apply pow2_lt_inv in H. lia.
Qed.

Lemma mantissa_range q :
  (0 < q)%Q ->
  (inject_Z (2 ^ 52) <= q / Fl.pow2 (Fl.exponent q) /\ q / Fl.pow2 (Fl.exponent q) < inject_Z (2 ^ 53))%Q.
Proof.
  intros Hq. destruct (exponent_spec q Hq) as [L U].
  pose proof (pow2_pos (Fl.exponent q)) as P.
  rewrite pow2_plus in L, U.
  rewrite <- !pow2_inject by lia. split.
  - apply Qle_shift_div_l; assumption.
  - apply Qlt_shift_div_r; assumption.
Qed.

Lemma mantissa_rounded q :
  (0 < q)%Q ->
  2 ^ 52 <= Fl.round_half_even (q / Fl.pow2 (Fl.exponent q)) <= 2 ^ 53.
Proof.
  intros Hq. destruct (mantissa_range q Hq) as [L U]. split.
  - rewrite <- (rhe_int (2 ^ 52)). now apply rhe_mono.
  - rewrite <- (rhe_int (2 ^ 53)). apply rhe_mono. lra.
Qed.

Lemma nearest_mono x y : (0 < x)%Q -> (x <= y)%Q -> (Fl.nearest x <= Fl.nearest y)%Q.
Proof.
  intros Hx Hxy. assert (0 < y)%Q as Hy by lra.
  pose proof (exponent_mono x y Hx Hxy) as He.
  pose proof (mantissa_rounded x Hx) as [_ Ux].
  pose proof (mantissa_rounded y Hy) as [Ly _].
  unfold Fl.nearest.
  set (ex := Fl.exponent x) in *. set (ey := Fl.exponent y) in *. clearbody ex ey.
  pose proof (pow2_pos ex) as Px. pose proof (pow2_pos ey) as Py.
  destruct (Z.eq_dec ex ey) as [E|N].
  - subst ey. apply Qmult_le_compat_r; [|lra].
    rewrite <- Zle_Qle. apply rhe_mono.
    apply Qmult_le_compat_r; [assumption|]. apply Qinv_le_0_compat. lra.
  - apply Qle_trans with (inject_Z (2 ^ 53) * Fl.pow2 ex)%Q.
    + apply Qmult_le_compat_r; [|lra]. now rewrite <- Zle_Qle.
    + apply Qle_trans with (inject_Z (2 ^ 52) * Fl.pow2 ey)%Q.
      * rewrite <- !pow2_inject, <- !pow2_plus by lia. apply pow2_le. lia.
      * apply Qmult_le_compat_r; [|lra]. now rewrite <- Zle_Qle.
Qed.

Lemma nearest_err q : (0 < q)%Q -> (Qabs (Fl.nearest q - q) <= Fl.eps * q)%Q.
Proof.
  intros Hq. destruct (mantissa_range q Hq) as [L _].
  pose proof (pow2_pos (Fl.exponent q)) as P.
  unfold Fl.nearest. set (e := Fl.exponent q) in *. set (m := (q / Fl.pow2 e)%Q) in *.
  pose proof (rhe_near m) as N.
  assert (q == m * Fl.pow2 e)%Q as Eq by (unfold m; field; lra).
  setoid_replace (inject_Z (Fl.round_half_even m) * Fl.pow2 e - q)%Q
    with ((inject_Z (Fl.round_half_even m) - m) * Fl.pow2 e)%Q using relation Qeq
    by (rewrite Eq at 1; ring).
  rewrite Qabs_Qmult, (Qabs_pos (Fl.pow2 e)) by lra.
  apply Qle_trans with ((1 # 2) * Fl.pow2 e)%Q.
  - apply Qmult_le_compat_r; [assumption | lra].
  - rewrite Eq. rewrite Qmult_assoc. apply Qmult_le_compat_r; [|lra].
    change (inject_Z (2 ^ 52)) with (4503599627370496 # 1) in L.
    eps_numeral. lra.
Qed.

Lemma nearest_pos q : (0 < q)%Q -> (0 < Fl.nearest q)%Q.
Proof.
  intros Hq. pose proof (mantissa_rounded q Hq) as [L _].
  unfold Fl.nearest. apply Qmult_lt_0_compat; [|apply pow2_pos].
  rewrite <- (Zlt_Qlt 0). lia.
Qed.

Lemma nearest_repr (m k : Z) :
  0 < m <= 2 ^ 53 -> 0 <= k ->
  (Fl.nearest (inject_Z m / inject_Z (2 ^ k)) == inject_Z m / inject_Z (2 ^ k))%Q.
Proof.
  intros [M0 M1] Hk. set (q := (inject_Z m / inject_Z (2 ^ k))%Q).
  pose proof (pow2_pos k) as Pk. pose proof (pow2_inject k Hk) as Ek.
  assert (0 < inject_Z m)%Q as Pm by (rewrite <- (Zlt_Qlt 0); lia).
  assert (q == inject_Z m / Fl.pow2 k)%Q as Eq by (unfold q; now rewrite Ek).
  assert (0 < q)%Q as Hq by (rewrite Eq; apply Qlt_shift_div_l; lra).
  destruct (exponent_spec q Hq) as [L U].
  unfold Fl.nearest. set (e := Fl.exponent q) in *. clearbody e.
  pose proof (pow2_pos e) as Pe.
  assert (inject_Z m == q * Fl.pow2 k)%Q as Em by (rewrite Eq; field; lra).
  assert (exists z, (q / Fl.pow2 e == inject_Z z)%Q) as [z Ez].
  { destruct (Z.le_gt_cases (k + e) 0) as [C|C].
    - exists (m * 2 ^ (- k - e)).
      rewrite inject_Z_mult, <- (pow2_inject (- k - e)) by lia.
      replace (- k - e) with (- (k + e)) by lia. unfold Fl.pow2 at 2.
      rewrite Qpower_opp. fold (Fl.pow2 (k + e)). rewrite pow2_plus, Eq.
      field. split; lra.
    - assert (Fl.pow2 (52 + e) * Fl.pow2 k <= inject_Z m)%Q as B1.
      { rewrite Em. apply Qmult_le_compat_r; lra. }
      rewrite <- pow2_plus in B1.
      assert (inject_Z m <= Fl.pow2 53)%Q as B2.
      { rewrite (pow2_inject 53) by lia. now rewrite <- Zle_Qle. }
      assert (Fl.pow2 (52 + e + k) <= Fl.pow2 53)%Q as B3 by lra.
      assert (52 + e + k <= 53) as B4.
      { destruct (Z.le_gt_cases (52 + e + k) 53) as [|G]; [assumption|].
        assert (Fl.pow2 53 < Fl.pow2 (52 + e + k))%Q; [|lra].
        apply Qpower_lt_compat_l; [lia | reflexivity]. }
      assert (k + e = 1) as K by lia.
      replace (52 + e + k) with 53 in B1 by lia.
      assert (inject_Z m == Fl.pow2 53)%Q as M53 by lra.
      exists (2 ^ 52). rewrite <- (pow2_inject 52) by lia.
      assert (q == Fl.pow2 53 / Fl.pow2 k)%Q as Eq' by (rewrite Eq, M53; reflexivity).
      rewrite Eq'. replace 53 with (52 + e + k) by lia.
      rewrite !pow2_plus. field. split; lra. }
  rewrite (rhe_proper _ _ Ez), rhe_int, <- Ez. field. lra.
Qed.

Lemma binary64_pos q : (0 < q)%Q -> Fl.binary64 q = Fl.nearest q.
Proof.
  intros H. unfold Fl.binary64. destruct (q ?= 0)%Q eqn:C; [| |reflexivity].
  - apply Qeq_alt in C. lra.
  - apply Qlt_alt in C. lra.
Qed.

Lemma binary64_neg q : (q < 0)%Q -> Fl.binary64 q = (- Fl.nearest (- q))%Q.
Proof.
  intros H. unfold Fl.binary64. destruct (q ?= 0)%Q eqn:C; [|reflexivity|].
  - apply Qeq_alt in C. lra.
  - apply Qgt_alt in C. lra.
Qed.

Lemma binary64_zero q : (q == 0)%Q -> Fl.binary64 q = 0%Q.
Proof.
  intros H. unfold Fl.binary64. destruct (q ?= 0)%Q eqn:C; [reflexivity| |].
  - apply Qlt_alt in C. lra.
  - apply Qgt_alt in C. lra.
Qed.

(** Rewrites [binary64 q] according to the sign of [q]. *)
Ltac by_sign q :=
  destruct (Q_dec q 0) as [[?|?]|?];
  [ rewrite (binary64_neg q) by assumption
  | rewrite (binary64_pos q) by assumption
  | rewrite (binary64_zero q) by assumption ].

Lemma binary64_mono x y : (x <= y)%Q -> (Fl.binary64 x <= Fl.binary64 y)%Q.
Proof.
  intros H. by_sign x; by_sign y; try (exfalso; lra); try apply Qle_refl.
  - apply Qopp_le_compat, nearest_mono; lra.
  - pose proof (nearest_pos (- x) ltac:(lra)). pose proof (nearest_pos y ltac:(lra)). lra.
  - pose proof (nearest_pos (- x) ltac:(lra)). lra.
  - now apply nearest_mono.
  - pose proof (nearest_pos y ltac:(lra)). lra.
Qed.

Lemma binary64_err x : (Qabs (Fl.binary64 x - x) <= Fl.eps * Qabs x)%Q.
Proof.
  by_sign x.
  - pose proof (nearest_err (- x) ltac:(lra)) as E.
    rewrite (Qabs_neg x) by lra.
    setoid_replace (- Fl.nearest (- x) - x)%Q with (- (Fl.nearest (- x) - - x))%Q
      using relation Qeq by ring.
    now rewrite Qabs_opp.
  - rewrite (Qabs_pos x) by lra. now apply nearest_err.
  - setoid_replace (0 - x)%Q with 0%Q using relation Qeq by lra.
    apply Qmult_le_0_compat; [discriminate | apply Qabs_nonneg].
Qed.

Lemma binary64_repr (m k : Z) :
  Z.abs m <= 2 ^ 53 -> 0 <= k <= 1074 ->
  (Fl.binary64 (inject_Z m / inject_Z (2 ^ k)) == inject_Z m / inject_Z (2 ^ k))%Q.
Proof.
  intros Hm [Hk _].
  assert (0 < inject_Z (2 ^ k))%Q as P.
  { rewrite <- (Zlt_Qlt 0). apply Z.pow_pos_nonneg; lia. }
  destruct (Z.lt_trichotomy m 0) as [N|[->|Pm]].
  - assert (inject_Z m / inject_Z (2 ^ k) < 0)%Q as S.
    { setoid_replace (inject_Z m / inject_Z (2 ^ k))%Q
        with (- (inject_Z (- m) / inject_Z (2 ^ k)))%Q using relation Qeq
        by (rewrite inject_Z_opp; field; lra).
      assert (0 < inject_Z (- m) / inject_Z (2 ^ k))%Q; [|lra].
      apply Qlt_shift_div_l; [assumption|]. rewrite Qmult_0_l, <- (Zlt_Qlt 0). lia. }
    rewrite (binary64_neg _ S).
    assert (- (inject_Z m / inject_Z (2 ^ k)) == inject_Z (- m) / inject_Z (2 ^ k))%Q as E
      by (rewrite inject_Z_opp; field; lra).
    pose proof (nearest_repr (- m) k ltac:(lia) Hk) as R.
    assert (Fl.nearest (- (inject_Z m / inject_Z (2 ^ k)))
            == Fl.nearest (inject_Z (- m) / inject_Z (2 ^ k)))%Q as E'.
    { apply Qle_antisym; apply nearest_mono; lra. }
    rewrite E', R, <- E. ring.
  - now rewrite binary64_zero by (field; lra).
  - rewrite binary64_pos.
    + apply nearest_repr; lia.
    + apply Qlt_shift_div_l; [assumption|]. rewrite Qmult_0_l, <- (Zlt_Qlt 0). lia.
Qed.

(** Rounding to the nearest binary64 number satisfies the standard model. *)
Lemma binary64_standard_model : Fl.standard_model Fl.binary64.
Proof.
  split; [exact binary64_mono | exact binary64_repr | exact binary64_err].
Qed.

(** ** Disparity normalisation and depth (lines 82 and 131-135) *)

Section ConverterFacts.

Variable rnd : Q -> Q.
Hypothesis Hrnd : Fl.standard_model rnd.
Variable maxDisparity : Q.
Hypothesis maxDisparity_pos : (0 < maxDisparity)%Q.

#[local] Abbreviation multiplier := (disparityMultiplier rnd maxDisparity).
#[local] Abbreviation normalized := (normalize rnd maxDisparity).

Lemma multiplier_bounds :
  (0 < multiplier /\ multiplier <= 255 / maxDisparity * (1 + Fl.eps))%Q.
Proof.
  assert (0 < 255 / maxDisparity)%Q as P.
  { apply Qlt_shift_div_l; [assumption | lra]. }
  unfold disparityMultiplier. split.
  - exact (rnd_pos rnd Hrnd _ P).
  - apply (rnd_bounds rnd Hrnd). lra.
Qed.

Lemma product_nonneg (raw : Z) :
  0 <= raw -> (0 <= rnd (inject_Z raw * multiplier))%Q.
Proof.
  intros Hraw. apply (rnd_nonneg rnd Hrnd).
  apply Qmult_le_0_compat.
  - now rewrite <- (Zle_Qle 0).
  - destruct multiplier_bounds. lra.
Qed.

Lemma product_in_range (raw : Z) :
  0 <= raw -> (inject_Z raw <= maxDisparity)%Q ->
  (rnd (inject_Z raw * multiplier) < 256)%Q.
Proof.
  intros Hraw Hle.
  assert (0 <= inject_Z raw)%Q as Hr by (now rewrite <- (Zle_Qle 0)).
  destruct multiplier_bounds as [Mpos Mle].
  set (t := (inject_Z raw / maxDisparity)%Q).
  assert (t <= 1)%Q as Ht by (apply Qle_shift_div_r; [assumption | lra]).
  assert (0 <= t)%Q as Ht0 by (apply Qle_shift_div_l; [assumption | lra]).
  assert (inject_Z raw * multiplier <= 255 * t * (1 + Fl.eps))%Q as Hp.
  { setoid_replace (255 * t * (1 + Fl.eps))%Q
      with (inject_Z raw * (255 / maxDisparity * (1 + Fl.eps)))%Q using relation Qeq
      by (unfold t; field; lra).
    rewrite !(Qmult_comm (inject_Z raw)).
    apply Qmult_le_compat_r; assumption. }
  assert (0 <= inject_Z raw * multiplier)%Q as Hp0
    by (apply Qmult_le_0_compat; lra).
  destruct (rnd_bounds rnd Hrnd _ Hp0) as [_ U].
  eps_numeral. lra.
Qed.

Lemma normalize_floor (raw : Z) :
  0 <= raw ->
  normalized raw = Qfloor (rnd (inject_Z raw * multiplier)) mod 256.
Proof.
  intros Hraw. unfold normalize, astype_uint8.
  now rewrite Qtrunc_floor by (apply product_nonneg; assumption).
Qed.

Lemma normalize_in_range (raw : Z) :
  0 <= raw -> (inject_Z raw <= maxDisparity)%Q ->
  normalized raw = Qfloor (rnd (inject_Z raw * multiplier)).
Proof.
  intros Hraw Hle. rewrite normalize_floor by assumption. apply Z.mod_small.
  pose proof (product_nonneg raw Hraw) as Hp.
  pose proof (product_in_range raw Hraw Hle) as Hlt.
  rewrite <- !Qtrunc_floor by assumption.
  split; [apply Qtrunc_bounds | apply Qtrunc_lt_int]; assumption.
Qed.

(** C1, the normalisation the code performs: the product is truncated and
    reduced modulo 256 by the cast to [uint8]; it is neither rounded nor
    clamped.  The result is a byte; while the raw sample does not exceed
    [maxDisparity] the product stays below 256 and nothing is lost; for
    [maxDisparity = 96] and the raw sample [128] the byte is [84]. *)
Theorem normalize_truncates_and_wraps (raw : Z) :
  0 <= raw ->
  let p := rnd (inject_Z raw * disparityMultiplier rnd maxDisparity) in
  normalize rnd maxDisparity raw = Qfloor p mod 256 /\
  0 <= normalize rnd maxDisparity raw <= 255 /\
  ((inject_Z raw <= maxDisparity)%Q -> normalize rnd maxDisparity raw = Qfloor p) /\
  ((maxDisparity == 96)%Q -> raw = 128 -> normalize rnd maxDisparity raw = 84).
Proof.
  intros Hraw p.
  pose proof (normalize_floor raw Hraw) as E. fold p in E.
  split; [exact E|].
  split; [rewrite E; pose proof (Z.mod_pos_bound (Qfloor p) 256); lia|].
  split; [now apply normalize_in_range|].
  intros HM ->. rewrite E.
  assert (p == 340)%Q as Ep.
  { unfold p, disparityMultiplier.
    assert (255 / maxDisparity == inject_Z 85 / inject_Z (2 ^ 5))%Q as E1.
    { rewrite HM. reflexivity. }
    pose proof (Fl.rnd_repr _ Hrnd 85 5 ltac:(cbn; lia) ltac:(lia)) as E2.
    rewrite <- (rnd_proper rnd Hrnd _ _ E1) in E2.
    assert (inject_Z 128 * rnd (255 / maxDisparity) == inject_Z 340)%Q as E3.
    { rewrite E2. reflexivity. }
    rewrite (rnd_proper rnd Hrnd _ _ E3).
    apply (rnd_int rnd Hrnd). cbn. lia. }
  rewrite (Qfloor_comp _ _ Ep). reflexivity.
Qed.

Variable focal_length : Q.
Hypothesis focal_length_pos : (0 < focal_length)%Q.

#[local] Abbreviation fb := (rnd (focal_length * baseline rnd)).
#[local] Abbreviation depth := (depth_sample rnd focal_length).

Lemma fb_pos : (0 < fb)%Q.
Proof.
  apply (rnd_pos rnd Hrnd). apply Qmult_lt_0_compat; [assumption|].
  apply (rnd_pos rnd Hrnd). reflexivity.
Qed.

Lemma normalized_byte (raw : Z) : 0 <= normalized raw <= 255.
Proof.
  unfold normalize, astype_uint8.
  pose proof (Z.mod_pos_bound (Fl.Qtrunc (rnd (inject_Z raw * multiplier))) 256). lia.
Qed.

(** The array operations of lines 134-135 act sample by sample. *)
Lemma depth_of_pixel (fd : gray) (r c : nat) :
  pixel (depth_of rnd focal_length fd) r c = depth <$> pixel fd r c.
Proof.
  unfold pixel, depth_of, elementwise.
  rewrite lookup_zip_with, list_lookup_fmap.
  destruct (fd !! r) as [row|]; simpl; [|reflexivity].
  rewrite lookup_zip_with, list_lookup_fmap.
  destruct (row !! c) as [n|]; reflexivity.
Qed.

Lemma depth_sample_cases (n : Z) :
  0 <= n ->
  exists q, depth n = Fl.Finite q /\
    ((q == 0)%Q <-> n = 0) /\
    (n <> 0 -> (q == rnd (fb / inject_Z n))%Q /\ (0 < q)%Q).
Proof.
  intros Hn. unfold depth_sample, np_divide.
  destruct (Z.eqb_spec n 0) as [->|Hne].
  - exists 0%Q. split; [reflexivity|]. split; [tauto | congruence].
  - assert (0 < rnd (fb / inject_Z n))%Q as P.
    { apply (rnd_pos rnd Hrnd). apply Qlt_shift_div_l.
      - rewrite <- (Zlt_Qlt 0). lia.
      - pose proof fb_pos. lra. }
    eexists. split; [reflexivity|]. split; [|intros _; split; [reflexivity | exact P]].
    split; [intros E; rewrite E in P; now apply Qlt_irrefl in P | tauto].
Qed.

(** C2: every pixel of the depth map is a finite number; it is 0 exactly
    where the normalised disparity is 0, and elsewhere it is the quotient
    [(focal_length * baseline) / normalised], a positive number.  The
    conversion is a total function: the zero-disparity case raises
    nothing, and the [inf] or [nan] the division leaves there is
    overwritten. *)
Theorem depth_zero_iff_disparity_zero (raw : gray) (r c : nat) :
  let fd := elementwise (normalize rnd maxDisparity) raw in
  let dm := depth_of rnd focal_length fd in
  (is_Some (pixel dm r c) <-> is_Some (pixel fd r c)) /\
  forall v, pixel dm r c = Some v ->
    exists n q, pixel fd r c = Some n /\ v = Fl.Finite q /\
      ((q == 0)%Q <-> n = 0) /\
      (n <> 0 -> (q == rnd (fb / inject_Z n))%Q /\ (0 < q)%Q).
Proof.
  intros fd dm. unfold dm. rewrite depth_of_pixel. split.
  - rewrite fmap_is_Some. tauto.
  - intros v Hv. apply fmap_Some in Hv as (n & Hn & ->).
    assert (0 <= n) as Hn0.
    { unfold pixel, fd, elementwise in Hn. rewrite list_lookup_fmap in Hn.
      destruct (raw !! r) as [row|]; simpl in Hn; [|discriminate].
      rewrite list_lookup_fmap in Hn.
      destruct (row !! c) as [x|]; simpl in Hn; [|discriminate].
      injection Hn as <-. apply normalized_byte. }
    destruct (depth_sample_cases n Hn0) as (q & E & Z0 & NZ).
    exists n, q. auto.
Qed.

Lemma normalized_mono (d1 d2 : Z) :
  0 <= d1 <= d2 -> (inject_Z d2 <= maxDisparity)%Q ->
  normalized d1 <= normalized d2.
Proof.
  intros [H1 H12] Hle.
  assert (inject_Z d1 <= inject_Z d2)%Q as Hq by (now rewrite <- Zle_Qle).
  rewrite (normalize_in_range d1), (normalize_in_range d2) by (lia || lra).
  apply Qfloor_resp_le, (Fl.rnd_mono _ Hrnd).
  apply Qmult_le_compat_r; [assumption|].
  destruct multiplier_bounds. lra.
Qed.

Lemma quotient_strictly_decreasing (n1 n2 : Z) :
  0 < n1 < n2 -> n2 <= 255 ->
  (rnd (fb / inject_Z n2) < rnd (fb / inject_Z n1))%Q.
Proof.
  intros [H1 H12] H2.
  pose proof fb_pos as F.
  assert (0 < inject_Z n1)%Q as P1 by (rewrite <- (Zlt_Qlt 0); lia).
  assert (0 < inject_Z n2)%Q as P2 by (rewrite <- (Zlt_Qlt 0); lia).
  assert (inject_Z n1 + 1 <= inject_Z n2)%Q as S.
  { change 1%Q with (inject_Z 1). rewrite <- inject_Z_plus, <- Zle_Qle. lia. }
  assert (inject_Z n1 <= 254)%Q as B.
  { change 254%Q with (inject_Z 254). rewrite <- Zle_Qle. lia. }
  set (a := (fb / inject_Z n1)%Q). set (b := (fb / inject_Z n2)%Q).
  assert (0 < a)%Q as Pa by (apply Qlt_shift_div_l; lra).
  assert (0 < b)%Q as Pb by (apply Qlt_shift_div_l; lra).
  assert (a * inject_Z n1 == fb)%Q as Ea by (unfold a; field; lra).
  assert (b * inject_Z n2 == fb)%Q as Eb by (unfold b; field; lra).
  destruct (rnd_bounds rnd Hrnd a ltac:(lra)) as [La _].
  destruct (rnd_bounds rnd Hrnd b ltac:(lra)) as [_ Ub].
  assert (b * (inject_Z n1 + 1) <= a * inject_Z n1)%Q as K.
  { rewrite Ea, <- Eb. rewrite !(Qmult_comm b).
    apply Qmult_le_compat_r; lra. }
  assert (b * (1 + Fl.eps) < a * (1 - Fl.eps))%Q; [|lra].
  eps_numeral.
  set (N := inject_Z n1) in *.
  assert (b <= a)%Q as Hba.
  { apply Qmult_le_r with (z := (N + 1)%Q); [lra|].
    setoid_replace (a * (N + 1))%Q with (a * N + a)%Q using relation Qeq by ring. lra. }
  assert (0 <= (a - b) * (254 - N))%Q as T by (apply Qmult_le_0_compat; lra).
  assert (254 * a - 255 * b == (a - b) * (254 - N) + (a * N - b * (N + 1)))%Q as I by ring.
  lra.
Qed.

Lemma depth_sample_nonzero (n : Z) :
  n <> 0 -> depth n = Fl.Finite (rnd (fb / inject_Z n)).
Proof.
  intros Hn. unfold depth_sample, np_divide.
  now destruct (Z.eqb_spec n 0).
Qed.

(** C4, as the code has it: for raw samples [d1 < d2] within the disparity
    range and with positive normalised disparities, the depth of [d1] is at
    least the depth of [d2]; it is strictly larger exactly when the two
    samples fall on different bytes. *)
Theorem depth_decreasing (d1 d2 : Z) :
  0 <= d1 < d2 -> (inject_Z d2 <= maxDisparity)%Q ->
  0 < normalize rnd maxDisparity d1 -> 0 < normalize rnd maxDisparity d2 ->
  exists q1 q2,
    depth_sample rnd focal_length (normalize rnd maxDisparity d1) = Fl.Finite q1 /\
    depth_sample rnd focal_length (normalize rnd maxDisparity d2) = Fl.Finite q2 /\
    normalize rnd maxDisparity d1 <= normalize rnd maxDisparity d2 /\
    (q2 <= q1)%Q /\
    (normalize rnd maxDisparity d1 < normalize rnd maxDisparity d2 -> (q2 < q1)%Q) /\
    (normalize rnd maxDisparity d1 = normalize rnd maxDisparity d2 -> (q2 == q1)%Q).
Proof.
  intros [H1 H12] Hle P1 P2.
  pose proof (normalized_mono d1 d2 ltac:(lia) Hle) as Hm.
  pose proof (normalized_byte d2) as B2.
  exists (rnd (fb / inject_Z (normalized d1))), (rnd (fb / inject_Z (normalized d2))).
  rewrite !depth_sample_nonzero by lia.
  split; [reflexivity|]. split; [reflexivity|]. split; [exact Hm|].
  assert (normalized d1 < normalized d2 ->
          (rnd (fb / inject_Z (normalized d2)) < rnd (fb / inject_Z (normalized d1)))%Q) as S.
  { intros Hlt. apply quotient_strictly_decreasing; lia. }
  split; [|split; [exact S|]].
  - destruct (Z.eq_dec (normalized d1) (normalized d2)) as [E|N].
    + rewrite E. apply Qle_refl.
    + apply Qlt_le_weak, S. lia.
  - intros E. rewrite E. reflexivity.
Qed.

End ConverterFacts.

(** C1, on the code: with [maxDisparity = 96] the raw sample [128] becomes
    [84], where the specification's formula gives [255]; and the raw sample
    [1] becomes [2], where rounding gives [3]. *)
Lemma normalize_differs_from_clamped_round :
  normalize Fl.binary64 96 128 = 84 /\ spec_normalizedDisparity 96 128 = 255 /\
  normalize Fl.binary64 96 1 = 2 /\ spec_normalizedDisparity 96 1 = 3.
Proof. evaluate. Qed.

Lemma normalize_truncates_and_wraps_witness :
  normalize Fl.binary64 96 128 = 84.
Proof.
  apply (normalize_truncates_and_wraps Fl.binary64 binary64_standard_model 96
           ltac:(reflexivity) 128 ltac:(lia)); reflexivity.
Defined.

Lemma depth_zero_iff_disparity_zero_witness :
  (is_Some (pixel (depth_of Fl.binary64 450 (elementwise (normalize Fl.binary64 96) [[0; 48]])) 0 1)
   <-> is_Some (pixel (elementwise (normalize Fl.binary64 96) [[0; 48]]) 0 1)) /\
  forall v, pixel (depth_of Fl.binary64 450 (elementwise (normalize Fl.binary64 96) [[0; 48]])) 0 1
            = Some v ->
    exists n q, pixel (elementwise (normalize Fl.binary64 96) [[0; 48]]) 0 1 = Some n /\
      v = Fl.Finite q /\ ((q == 0)%Q <-> n = 0) /\
      (n <> 0 ->
       (q == Fl.binary64 (Fl.binary64 (450 * baseline Fl.binary64) / inject_Z n))%Q /\ (0 < q)%Q).
Proof.
  apply (depth_zero_iff_disparity_zero Fl.binary64 binary64_standard_model 96 450
           ltac:(reflexivity) [[0; 48]] 0%nat 1%nat).
Defined.

(** C4, on the code: two raw samples that fall on the same byte have the
    same depth (multiplier 1/2, samples 2 and 3), and past [maxDisparity]
    the byte wraps around, so that the larger sample gets the larger depth
    (multiplier 255/96, samples 96 and 97). *)
Lemma depth_not_strictly_decreasing :
  (0 < normalize Fl.binary64 510 2 /\ 0 < normalize Fl.binary64 510 3 /\
   depth_sample Fl.binary64 450 (normalize Fl.binary64 510 2)
     = depth_sample Fl.binary64 450 (normalize Fl.binary64 510 3)) /\
  (0 < normalize Fl.binary64 96 96 /\ 0 < normalize Fl.binary64 96 97 /\
   exists q1 q2,
     depth_sample Fl.binary64 450 (normalize Fl.binary64 96 96) = Fl.Finite q1 /\
     depth_sample Fl.binary64 450 (normalize Fl.binary64 96 97) = Fl.Finite q2 /\
     (q1 < q2)%Q).
Proof.
  split.
  - repeat split; vm_compute; reflexivity.
  - split; [vm_compute; reflexivity|]. split; [vm_compute; reflexivity|].
    eexists _, _. split; [vm_compute; reflexivity|]. split; [vm_compute; reflexivity|].
    vm_compute. reflexivity.
Qed.

Lemma depth_decreasing_witness :
  exists q1 q2,
    depth_sample Fl.binary64 450 (normalize Fl.binary64 96 10) = Fl.Finite q1 /\
    depth_sample Fl.binary64 450 (normalize Fl.binary64 96 20) = Fl.Finite q2 /\
    normalize Fl.binary64 96 10 <= normalize Fl.binary64 96 20 /\
    (q2 <= q1)%Q /\
    (normalize Fl.binary64 96 10 < normalize Fl.binary64 96 20 -> (q2 < q1)%Q) /\
    (normalize Fl.binary64 96 10 = normalize Fl.binary64 96 20 -> (q2 == q1)%Q).
Proof.
  apply (depth_decreasing Fl.binary64 binary64_standard_model 96 ltac:(reflexivity) 450
           ltac:(reflexivity) 10 20).
  - lia.
  - vm_compute. discriminate.
  - vm_compute. reflexivity.
  - vm_compute. reflexivity.
Defined.

(** ** Bounding boxes and the sampled centre (lines 102-109 and 144-151) *)

Section FuserFacts.

Variable rnd : Q -> Q.
Hypothesis Hrnd : Fl.standard_model rnd.
Variable resolutionWidth resolutionHeight : Z.
Hypothesis wider_than_tall : 0 < resolutionHeight <= resolutionWidth.
Hypothesis resolution_small : resolutionHeight <= 2 ^ 53.

#[local] Abbreviation width := resolutionWidth.
#[local] Abbreviation height := resolutionHeight.
#[local] Abbreviation offset := (offsetX resolutionWidth resolutionHeight).

(** One coordinate of [frameNorm]'s result, for the dimension [dim]. *)
#[local] Abbreviation scaled dim v :=
  (Fl.Qtrunc (rnd (Fl.clip v 0 1 * inject_Z dim))).

Lemma clip_unit v : (0 <= Fl.clip v 0 1 <= 1)%Q.
Proof.
  unfold Fl.clip. split.
  - apply Q.min_glb; [apply Q.le_max_r | discriminate].
  - apply Q.le_min_r.
Qed.

Lemma scaled_bounds v : 0 <= scaled height v <= height.
Proof.
  pose proof (clip_unit v) as [C0 C1].
  assert (0 <= inject_Z height)%Q as HH by (rewrite <- (Zle_Qle 0); lia).
  assert (0 <= Fl.clip v 0 1 * inject_Z height)%Q as P0 by (apply Qmult_le_0_compat; assumption).
  assert (Fl.clip v 0 1 * inject_Z height <= inject_Z height)%Q as P1.
  { setoid_replace (inject_Z height) with (1 * inject_Z height)%Q using relation Qeq at 2 by ring.
    apply Qmult_le_compat_r; assumption. }
  pose proof (rnd_nonneg rnd Hrnd _ P0) as R0.
  pose proof (Fl.rnd_mono _ Hrnd _ _ P1) as R1.
  rewrite (rnd_int rnd Hrnd height) in R1 by lia.
  split; [now apply Qtrunc_bounds | now apply Qtrunc_le_int].
Qed.

Lemma frameNorm_square (a b c d : Q) :
  frameNorm rnd (croppedFrame_shape height) [a; b; c; d]
  = [scaled height a; scaled height b; scaled height c; scaled height d].
Proof. reflexivity. Qed.

Lemma pixel_box_eq (d : Detection) :
  pixel_box rnd width height d
  = [scaled height (xmin d) + offset; scaled height (ymin d);
     scaled height (xmax d) + offset; scaled height (ymax d)].
Proof. reflexivity. Qed.

Lemma offset_bounds : 0 <= offset /\ offset + height <= width /\ (height < width -> offset + height < width).
Proof.
  unfold offsetX. pose proof (Z.div_pos (width - height) 2).
  pose proof (Z.mul_div_le (width - height) 2).
  pose proof (Z.div_lt (width - height) 2).
  repeat split; lia.
Qed.

(** C5: [frameNorm] clamps each of the four coordinates to [[0, 1]] and
    scales it by the side of the square crop, the smaller sensor dimension,
    so that it lies between 0 and that side; the offset is added to the two
    x coordinates only, and the box then lies within the sensor:
    x in [[0, width]], y in [[0, height]]. *)
Theorem pixel_box_within_sensor (d : Detection) :
  let squareDim := Z.min width height in
  let box := frameNorm rnd (croppedFrame_shape height) [xmin d; ymin d; xmax d; ymax d] in
  box = [scaled squareDim (xmin d); scaled squareDim (ymin d);
         scaled squareDim (xmax d); scaled squareDim (ymax d)] /\
  Forall (fun p => 0 <= p <= squareDim) box /\
  exists x0 y0 x1 y1,
    box = [x0; y0; x1; y1] /\
    pixel_box rnd width height d = [x0 + offset; y0; x1 + offset; y1] /\
    0 <= x0 + offset <= width /\ 0 <= x1 + offset <= width /\
    0 <= y0 <= height /\ 0 <= y1 <= height.
Proof.
  intros squareDim box. unfold box, squareDim.
  replace (Z.min width height) with height by lia.
  pose proof (scaled_bounds (xmin d)). pose proof (scaled_bounds (ymin d)).
  pose proof (scaled_bounds (xmax d)). pose proof (scaled_bounds (ymax d)).
  pose proof offset_bounds as (O1 & O2 & _).
  split; [apply frameNorm_square|]. split.
  - rewrite frameNorm_square. repeat constructor; lia.
  - eexists _, _, _, _. split; [apply frameNorm_square|].
    split; [apply pixel_box_eq|]. lia.
Qed.

Lemma py_getitem_in_range {A} (l : list A) (i : Z) :
  0 <= i < Z.of_nat (length l) -> exists a, py_getitem l i = Some a /\ l !! Z.to_nat i = Some a.
Proof.
  intros Hi. unfold py_getitem.
  destruct (Z.leb_spec 0 i); [|lia]. destruct (Z.ltb_spec i (Z.of_nat (length l))); [|lia].
  simpl. destruct (lookup_lt_is_Some_2 l (Z.to_nat i) ltac:(lia)) as [a Ha].
  exists a. auto.
Qed.

Lemma py_getitem_past_end {A} (l : list A) (i : Z) :
  Z.of_nat (length l) <= i -> py_getitem l i = None.
Proof.
  intros Hi. unfold py_getitem.
  destruct (Z.leb_spec 0 i); [|lia]. destruct (Z.ltb_spec i (Z.of_nat (length l))); [lia|].
  simpl. destruct (Z.ltb_spec i 0); [lia|]. now rewrite andb_false_r.
Qed.

Lemma py_getitem2_in_range {A} (a : list (list A)) (rows cols r c : Z) :
  Z.of_nat (length a) = rows ->
  Forall (fun row => Z.of_nat (length row) = cols) a ->
  0 <= r < rows -> 0 <= c < cols ->
  is_Some (py_getitem2 a r c).
Proof.
  intros Hr Hc Hir Hic. unfold py_getitem2.
  destruct (py_getitem_in_range a r ltac:(lia)) as (row & -> & Hrow). simpl.
  rewrite Forall_lookup in Hc. specialize (Hc _ _ Hrow). simpl in Hc.
  destruct (py_getitem_in_range row c ltac:(lia)) as (x & -> & _). eauto.
Qed.

(** Where the lookup of lines 150-151 succeeds: the sampled centre is the
    midpoint of the pixel box truncated to an integer, with no clamp of its
    own.  On a sensor wider than tall its column is always a column of the
    depth map, and its row lies between 0 and the height; the row is a row
    of the depth map, and the lookup succeeds, when one of the two y
    coordinates of the box is above the bottom edge. *)
Theorem center_sample (d : Detection) (a : list (list Fl.np_float)) :
  height < width ->
  Z.of_nat (length a) = height ->
  Forall (fun row => Z.of_nat (length row) = width) a ->
  exists b0 b1 b2 b3,
    pixel_box rnd width height d = [b0; b1; b2; b3] /\
    let center_x := int_half (b0 + b2) in
    let center_y := int_half (b1 + b3) in
    center_x = (b0 + b2) / 2 /\ center_y = (b1 + b3) / 2 /\
    0 <= center_x < width /\ 0 <= center_y <= height /\
    (b1 < height \/ b3 < height ->
     center_y < height /\ is_Some (py_getitem2 a center_y center_x)).
Proof.
  intros Hlt Hrows Hcols.
  pose proof (scaled_bounds (xmin d)). pose proof (scaled_bounds (ymin d)).
  pose proof (scaled_bounds (xmax d)). pose proof (scaled_bounds (ymax d)).
  pose proof offset_bounds as (O1 & O2 & O3). specialize (O3 Hlt).
  eexists _, _, _, _. split; [apply pixel_box_eq|].
  cbv zeta. unfold int_half.
  rewrite !Z.quot_div_nonneg by lia.
  split; [reflexivity|]. split; [reflexivity|].
  assert (forall s lo hi, 2 * lo <= s -> s < 2 * hi -> lo <= s / 2 < hi) as Half.
  { intros s lo hi L U. split.
    - apply Z.div_le_lower_bound; lia.
    - apply Z.div_lt_upper_bound; lia. }
  split; [apply Half; lia|].
  split; [pose proof (Half (scaled height (ymin d) + scaled height (ymax d)) 0 (height + 1)); lia|].
  intros Hy.
  assert (0 <= (scaled height (ymin d) + scaled height (ymax d)) / 2 < height) as Hc
    by (apply Half; lia).
  split; [lia|].
  eapply py_getitem2_in_range; eauto. apply Half; lia.
Qed.

End FuserFacts.

Lemma pixel_box_within_sensor_witness :
  Forall (fun p => 0 <= p <= Z.min Oak.width Oak.height)
    (frameNorm Fl.binary64 (croppedFrame_shape Oak.height) [-2 # 10; 1 # 4; 13 # 10; 1 # 2]).
Proof.
  pose proof (pixel_box_within_sensor Fl.binary64 binary64_standard_model Oak.width Oak.height
                ltac:(unfold Oak.width, Oak.height; lia)
                ltac:(unfold Oak.height; lia)
                (Oak.person (3 # 4) (-2 # 10) (1 # 4) (13 # 10) (1 # 2))) as H.
  exact (proj1 (proj2 H)).
Defined.

Lemma center_sample_witness :
  exists b0 b1 b2 b3,
    pixel_box Fl.binary64 Oak.width Oak.height
      (Oak.person (3 # 4) (1 # 4) (1 # 4) (1 # 2) (1 # 2)) = [b0; b1; b2; b3] /\
    let center_x := int_half (b0 + b2) in
    let center_y := int_half (b1 + b3) in
    center_x = (b0 + b2) / 2 /\ center_y = (b1 + b3) / 2 /\
    0 <= center_x < Oak.width /\ 0 <= center_y <= Oak.height /\
    (b1 < Oak.height \/ b3 < Oak.height ->
     center_y < Oak.height /\
     is_Some (py_getitem2 (replicate 400 (replicate 640 (Fl.Finite 0))) center_y center_x)).
Proof.
  apply (center_sample Fl.binary64 binary64_standard_model Oak.width Oak.height
           ltac:(unfold Oak.width, Oak.height; lia)
           ltac:(unfold Oak.height; lia)).
  - unfold Oak.width, Oak.height; lia.
  - reflexivity.
  - apply Forall_forall. intros row Hrow.
    apply elem_of_replicate in Hrow as [-> _]. reflexivity.
Defined.

(** C3, on the code: the depth sample can index outside the map.  A box
    whose two y coordinates are clipped to 1.0 has its centre on row 400 of a
    sensor 400 rows tall, one past the last row of the depth map: the centre
    is not clamped, [depth_calculated[400, 370]] is no sample of the map and
    the lookup raises [IndexError]. *)
Lemma center_row_past_last_row :
  let d := Oak.person (3 # 4) (1 # 2) 1 (3 # 4) 1 in
  pixel_box Fl.binary64 Oak.width Oak.height d = [320; 400; 420; 400] /\
  int_half (400 + 400) = 400 /\ int_half (320 + 420) = 370 /\
  py_getitem2 (replicate 400 (replicate 640 (Fl.Finite (13 # 100)))) 400 370 = None /\
  (render_detection Fl.binary64 Oak.width Oak.height Oak.corner_pixels Oak.no_pixels d
     (Oak.after_first_frame (128, 0, 0) (Fl.Finite (13 # 100)) [d])).1 = Raise IndexError.
Proof. evaluate. Qed.

(** ** Drawing in place (lines 146-152) *)

Lemma map_at_ext {A B} (f g : Z -> A -> B) (i : Z) (l : list A) :
  (forall j a, f j a = g j a) -> map_at f i l = map_at g i l.
Proof.
  intros E. revert i. induction l as [|a l IH]; intros i; simpl; [reflexivity|].
  now rewrite E, IH.
Qed.

Lemma map_at_map_at {A B C} (f : Z -> A -> B) (g : Z -> B -> C) (i : Z) (l : list A) :
  map_at g i (map_at f i l) = map_at (fun j a => g j (f j a)) i l.
Proof.
  revert i. induction l as [|a l IH]; intros i; simpl; [reflexivity|].
  now rewrite IH.
Qed.

Lemma map_at_id {A} (i : Z) (l : list A) : map_at (fun _ a => a) i l = l.
Proof.
  revert i. induction l as [|a l IH]; intros i; simpl; [reflexivity|].
  now rewrite IH.
Qed.

Lemma covers_app (p q : list point) (x y : Z) :
  covers (p ++ q) x y = covers p x y || covers q x y.
Proof. unfold covers. apply existsb_app. Qed.

Lemma paint_nil (c : color) (img : image) : paint c [] img = img.
Proof.
  unfold paint. simpl.
  rewrite (map_at_ext _ (fun _ row => row)); [apply map_at_id|].
  intros j row. apply map_at_id.
Qed.

Lemma paint_paint (c : color) (p q : list point) (img : image) :
  paint c q (paint c p img) = paint c (p ++ q) img.
Proof.
  unfold paint. rewrite map_at_map_at. apply map_at_ext. intros y row.
  rewrite map_at_map_at. apply map_at_ext. intros x px.
  rewrite covers_app. destruct (covers p x y), (covers q x y); reflexivity.
Qed.

Lemma paint_covers_ext (c : color) (p q : list point) (img : image) :
  (forall x y, covers p x y = covers q x y) -> paint c p img = paint c q img.
Proof.
  intros E. unfold paint. apply map_at_ext. intros y row.
  apply map_at_ext. intros x px. now rewrite E.
Qed.

Lemma paint_twice (c : color) (p : list point) (img : image) :
  paint c p (paint c p img) = paint c p img.
Proof.
  rewrite paint_paint. apply paint_covers_ext. intros x y.
  rewrite covers_app. apply orb_diag.
Qed.

Lemma set_frameDisparity_same (s : Vars) (img : image) :
  frameDisparity s = Some img -> set_frameDisparity (Some img) s = s.
Proof. destruct s. simpl. now intros ->. Qed.

Lemma annotate_nil (w : world) : annotate [] w = w.
Proof.
  destruct w as [s l]. unfold annotate. simpl. rewrite app_nil_r. f_equal.
  destruct (frameDisparity s) as [img|] eqn:E; [|reflexivity].
  rewrite paint_nil. now apply set_frameDisparity_same.
Qed.

Lemma annotate_app (c1 c2 : list (event * list point)) (w : world) :
  annotate c2 (annotate c1 w) = annotate (c1 ++ c2) w.
Proof.
  destruct w as [s l]. unfold annotate. simpl.
  rewrite !fmap_app, concat_app, app_assoc. f_equal.
  destruct (frameDisparity s) as [img|] eqn:E; simpl.
  - now rewrite paint_paint.
  - now rewrite E.
Qed.

Lemma annotate_frameDisparity (c : list (event * list point)) (w : world) :
  frameDisparity (vars (annotate c w))
  = paint green (concat (c.*2)) <$> frameDisparity (vars w).
Proof.
  unfold annotate. simpl.
  destruct (frameDisparity (vars w)) eqn:E; simpl; [reflexivity | now rewrite E].
Qed.

Lemma annotate_other_vars (c : list (event * list point)) (w : world) :
  frame (vars (annotate c w)) = frame (vars w) /\
  frameManip (vars (annotate c w)) = frameManip (vars w) /\
  detections (vars (annotate c w)) = detections (vars w) /\
  depth_calculated (vars (annotate c w)) = depth_calculated (vars w).
Proof.
  unfold annotate. simpl. now destruct (frameDisparity (vars w)).
Qed.

Lemma annotate_log (c : list (event * list point)) (w : world) :
  log (annotate c w) = log w ++ c.*1.
Proof. reflexivity. Qed.

Lemma annotate_vars_ext (c c' : list (event * list point)) (w : world) :
  concat (c.*2) = concat (c'.*2) -> vars (annotate c w) = vars (annotate c' w).
Proof. intros E. unfold annotate. simpl. now rewrite E. Qed.

(** Drawing the same calls on the buffer they were drawn on changes no
    pixel. *)
Lemma annotate_twice_vars (c : list (event * list point)) (w : world) :
  vars (annotate c (annotate c w)) = vars (annotate c w).
Proof.
  unfold annotate. simpl.
  destruct (frameDisparity (vars w)) as [img|] eqn:E; simpl.
  - now rewrite paint_twice.
  - now rewrite E.
Qed.

Lemma bind_ok {A B} (m : M A) (k : A -> M B) (w w' : world) (a : A) :
  m w = (Ok a, w') -> (m ≫= k) w = k a w'.
Proof. intros E. unfold mbind, M_bind. now rewrite E. Qed.

Lemma bind_raise {A B} (m : M A) (k : A -> M B) (w w' : world) (e : exn) :
  m w = (Raise e, w') -> (m ≫= k) w = (Raise e, w').
Proof. intros E. unfold mbind, M_bind. now rewrite E. Qed.

Lemma annotate_buffer (c : list (event * list point)) (w : world) (img : image) :
  frameDisparity (vars w) = Some img ->
  frameDisparity (vars (annotate c w)) = Some (paint green (concat (c.*2)) img).
Proof. intros E. now rewrite annotate_frameDisparity, E. Qed.

Lemma emit_annotate (e : event) (w : world) :
  emit e w = (Ok tt, annotate [(e, [])] w).
Proof.
  unfold emit, annotate. simpl. do 2 f_equal.
  destruct (frameDisparity (vars w)) as [img|] eqn:E; [|reflexivity].
  rewrite paint_nil. symmetry. now apply set_frameDisparity_same.
Qed.

Section RenderFacts.

Variable rnd : Q -> Q.
Variable resolutionWidth resolutionHeight : Z.
Variable rectangle_pixels : point -> point -> Z -> list point.
Variable text_pixels : string -> point -> list point.

#[local] Abbreviation render_detection' :=
  (render_detection rnd resolutionWidth resolutionHeight rectangle_pixels text_pixels).
#[local] Abbreviation overlay' :=
  (overlay rnd resolutionWidth resolutionHeight rectangle_pixels text_pixels).
#[local] Abbreviation overlays' :=
  (overlays rnd resolutionWidth resolutionHeight rectangle_pixels text_pixels).
#[local] Abbreviation render' :=
  (render rnd resolutionWidth resolutionHeight rectangle_pixels text_pixels).
#[local] Abbreviation box := (pixel_box rnd resolutionWidth resolutionHeight).

Lemma draw_annotate (e : event) (pts : list point) (w : world) (img : image) :
  frameDisparity (vars w) = Some img ->
  draw e pts w = (Ok tt, annotate [(e, pts)] w).
Proof.
  intros E. unfold draw, annotate, get_vars, set_vars, emit, mbind, M_bind.
  simpl. rewrite E. simpl. now rewrite app_nil_r.
Qed.

Lemma depth_at_run (cy cx : Z) (w : world) :
  depth_at cy cx w =
  (match depth_calculated (vars w) with
   | DepthArr a =>
       match py_getitem2 a cy cx with
       | Some v => Ok v
       | None => Raise IndexError
       end
   | DepthInit => Raise TypeError
   end, w).
Proof.
  unfold depth_at, get_vars, mbind, M_bind, lift_index, raise, mret, M_ret.
  destruct (depth_calculated (vars w)) as [|a]; [reflexivity|].
  now destruct (py_getitem2 a cy cx).
Qed.

Lemma pixel_box_four (d : Detection) :
  exists b0 b1 b2 b3, box d = [b0; b1; b2; b3].
Proof. eexists _, _, _, _. reflexivity. Qed.

(** The loop body does what its summary says. *)
Lemma render_detection_overlay (d : Detection) (w : world) (img : image) :
  frameDisparity (vars w) = Some img ->
  render_detection' d w
  = ((overlay' (depth_calculated (vars w)) d).1,
     annotate (overlay' (depth_calculated (vars w)) d).2 w).
Proof.
  intros E. destruct (pixel_box_four d) as (b0 & b1 & b2 & b3 & B).
  unfold render_detection, overlay. rewrite B.
  destruct (py_getitem labelMap (label d)) as [name|] eqn:L.
  2:{ cbn [fst snd]. now rewrite annotate_nil. }
  erewrite bind_ok by reflexivity.
  destruct (bool_decide (name ∈ includedLabels)).
  2:{ cbn [fst snd]. now rewrite annotate_nil. }
  unfold cv2_rectangle, cv2_putText.
  erewrite bind_ok by (eapply draw_annotate; eassumption).
  erewrite bind_ok by reflexivity.
  erewrite bind_ok by (eapply draw_annotate, annotate_buffer; eassumption).
  rewrite annotate_app.
  erewrite bind_ok by (eapply draw_annotate, annotate_buffer; eassumption).
  rewrite annotate_app. simpl app.
  match goal with |- context [annotate ?c w] => set (head := c) end.
  pose proof (annotate_other_vars head w) as (_ & _ & _ & D).
  destruct (depth_calculated (vars w)) as [|a] eqn:DC.
  - erewrite bind_raise; [reflexivity|]. now rewrite depth_at_run, D.
  - destruct (py_getitem2 a (int_half (b1 + b3)) (int_half (b0 + b2))) as [v|] eqn:G.
    + erewrite bind_ok by (now rewrite depth_at_run, D, G).
      erewrite bind_ok by (eapply draw_annotate, annotate_buffer; eassumption).
      rewrite annotate_app.
      erewrite bind_ok by reflexivity.
      rewrite emit_annotate, annotate_app. reflexivity.
    + erewrite bind_raise; [reflexivity|]. now rewrite depth_at_run, D, G.
Qed.

Lemma for_each_overlays (ds : list Detection) (w : world) (img : image) :
  frameDisparity (vars w) = Some img ->
  for_each ds render_detection' w
  = ((overlays' (depth_calculated (vars w)) ds).1,
     annotate (overlays' (depth_calculated (vars w)) ds).2 w).
Proof.
  revert w img. induction ds as [|d ds IH]; intros w img E.
  - simpl. now rewrite annotate_nil.
  - cbn [for_each overlays].
    pose proof (render_detection_overlay d w img E) as R.
    destruct (overlay' (depth_calculated (vars w)) d) as [[[]|e] calls]; cbn [fst snd] in R.
    + erewrite bind_ok by exact R.
      pose proof (annotate_other_vars calls w) as (_ & _ & _ & D).
      rewrite (IH _ _ (annotate_buffer calls w img E)), D.
      destruct (overlays' (depth_calculated (vars w)) ds) as [o calls'].
      cbn [fst snd]. now rewrite annotate_app.
    + erewrite bind_raise by exact R. reflexivity.
Qed.

Lemma render_absent (w : world) :
  frameDisparity (vars w) = None -> render' w = (Ok tt, w).
Proof.
  intros E. unfold render, get_vars, mbind, M_bind. simpl. now rewrite E.
Qed.

Lemma render_present (w : world) (img : image) :
  frameDisparity (vars w) = Some img ->
  render' w =
  let r := overlays' (depth_calculated (vars w)) (detections (vars w)) in
  match r.1 with
  | Ok _ =>
      (Ok tt, annotate (r.2 ++ [(Imshow (paint green (concat (r.2.*2)) img), [])]) w)
  | Raise e => (Raise e, annotate r.2 w)
  end.
Proof.
  intros E. unfold render.
  erewrite bind_ok by reflexivity. rewrite E.
  pose proof (for_each_overlays (detections (vars w)) w img E) as F.
  destruct (overlays' (depth_calculated (vars w)) (detections (vars w))) as [[[]|e] calls];
    cbn [fst snd] in *.
  - erewrite bind_ok by exact F. erewrite bind_ok by reflexivity.
    rewrite (annotate_buffer calls w img E), emit_annotate, annotate_app. reflexivity.
  - erewrite bind_raise by exact F. reflexivity.
Qed.

Lemma render_other_vars (w : world) :
  frame (vars (render' w).2) = frame (vars w) /\
  frameManip (vars (render' w).2) = frameManip (vars w) /\
  detections (vars (render' w).2) = detections (vars w) /\
  depth_calculated (vars (render' w).2) = depth_calculated (vars w).
Proof.
  destruct (frameDisparity (vars w)) as [img|] eqn:E.
  - rewrite (render_present w img E). cbv zeta.
    destruct (overlays' _ _).1 as [[]|e]; cbn [snd]; apply annotate_other_vars.
  - rewrite (render_absent w E). auto.
Qed.

(** C7, as the code has it: the overlay is drawn in place.  After [render]
    the buffer [frameDisparity] refers to is its former content repainted,
    the other variables are untouched, and what is shown is that buffer.
    The drawing depends on nothing else: rendering again, on the buffer just
    annotated, has the same outcome and changes no pixel. *)
Theorem render_in_place_idempotent (w : world) :
  let w1 := (render' w).2 in
  (exists pts,
     frameDisparity (vars w1) = paint green pts <$> frameDisparity (vars w)) /\
  (frame (vars w1) = frame (vars w) /\ frameManip (vars w1) = frameManip (vars w) /\
   detections (vars w1) = detections (vars w) /\
   depth_calculated (vars w1) = depth_calculated (vars w)) /\
  (forall img1, (render' w).1 = Ok tt -> frameDisparity (vars w1) = Some img1 ->
     exists evs, log w1 = log w ++ evs ++ [Imshow img1]) /\
  (render' w1).1 = (render' w).1 /\
  vars (render' w1).2 = vars w1.
Proof.
  intros w1. unfold w1. clear w1.
  destruct (frameDisparity (vars w)) as [img|] eqn:E.
  2:{ rewrite (render_absent w E). cbn [fst snd]. rewrite (render_absent w E), E.
      cbn [fst snd]. split; [exists []; reflexivity|]. split; [auto|].
      split; [intros img1 _ ?; congruence | auto]. }
  rewrite (render_present w img E). cbv zeta.
  set (r := overlays' (depth_calculated (vars w)) (detections (vars w))).
  assert (forall c,
            overlays' (depth_calculated (vars (annotate c w)))
                      (detections (vars (annotate c w))) = r) as Same.
  { intros c. pose proof (annotate_other_vars c w) as (_ & _ & -> & ->). reflexivity. }
  destruct (r.1) as [[]|e] eqn:O; cbn [fst snd].
  - set (c := r.2 ++ [(Imshow (paint green (concat (r.2.*2)) img), [])]).
    pose proof (annotate_other_vars c w) as (F1 & F2 & F3 & F4).
    split; [exists (concat (c.*2)); now rewrite annotate_frameDisparity, E|].
    split; [auto|]. split.
    { intros img1 _ B. rewrite (annotate_buffer c w img E) in B. injection B as <-.
      exists (r.2.*1). rewrite annotate_log. unfold c.
      rewrite !fmap_app, concat_app. cbn [fmap list_fmap concat]. rewrite !app_nil_r.
      reflexivity. }
    rewrite (render_present _ _ (annotate_buffer c w img E)). cbv zeta.
    rewrite (Same c), O. cbn [fst snd]. split; [reflexivity|].
    rewrite <- (annotate_twice_vars c w). apply annotate_vars_ext.
    unfold c. rewrite !fmap_app, !concat_app. reflexivity.
  - pose proof (annotate_other_vars r.2 w) as (F1 & F2 & F3 & F4).
    split; [exists (concat (r.2.*2)); now rewrite annotate_frameDisparity, E|].
    split; [auto|]. split; [intros ? ?; discriminate|].
    rewrite (render_present _ _ (annotate_buffer r.2 w img E)). cbv zeta.
    rewrite (Same r.2), O. cbn [fst snd].
    split; [reflexivity | apply annotate_twice_vars].
Qed.

Hypothesis Hrnd : Fl.standard_model rnd.

Lemma percent_bounds (d : Detection) :
  (0 <= confidence d)%Q ->
  (inject_Z (percent rnd d) <= rnd (confidence d * 100)
   /\ rnd (confidence d * 100) < inject_Z (percent rnd d + 1))%Q.
Proof.
  intros Hc. unfold percent.
  assert (0 <= rnd (confidence d * 100))%Q as P.
  { apply (rnd_nonneg rnd Hrnd). apply Qmult_le_0_compat; [assumption | discriminate]. }
  destruct (Qtrunc_bounds _ P) as (_ & L & U). auto.
Qed.

Lemma percent_99 (d : Detection) :
  (99 # 100 <= confidence d)%Q -> (confidence d <= 9999 # 10000)%Q ->
  percent rnd d = 99.
Proof.
  intros L U. unfold percent.
  assert (99 <= confidence d * 100)%Q as L' by lra.
  pose proof (Fl.rnd_mono _ Hrnd _ _ L') as R.
  rewrite (rnd_int rnd Hrnd 99) in R by (cbn; lia).
  change (inject_Z 99) with 99%Q in R.
  destruct (rnd_bounds rnd Hrnd (confidence d * 100) ltac:(lra)) as [_ B].
  assert (rnd (confidence d * 100) < 100)%Q as R' by (eps_numeral; lra).
  assert (0 <= rnd (confidence d * 100))%Q as P by lra.
  pose proof (Qtrunc_mono 99 _ ltac:(lra) R) as T1.
  change 99%Q with (inject_Z 99) in T1. rewrite Qtrunc_int in T1.
  pose proof (Qtrunc_lt_int _ 100 P R'). lia.
Qed.

(** C10: whatever [render_detection] draws or prints for a detection, the
    confidence text, drawn 40 pixels below the corner of the box, and the
    confidence at the end of the printed line are both the truncation
    [int(confidence * 100)] followed by a percent sign.  The integer is at
    most the product and more than the product minus one; a confidence of
    0.999 gives ["99%"]. *)
Theorem confidence_percent_truncated (d : Detection) (w : world) (img : image) :
  frameDisparity (vars w) = Some img ->
  let p := percent rnd d in
  exists b0 b1 b2 b3 evs,
    box d = [b0; b1; b2; b3] /\
    log (render_detection' d w).2 = log w ++ evs /\
    (forall text org, PutText text org ∈ evs -> org = (b0 + 10, b1 + 40) ->
       text = pretty p +:+ "%") /\
    (forall line, Print line ∈ evs ->
       exists name depth_value,
         line = "Item Classification: " +:+ name +:+ ", Distance: "
                  +:+ Fl.format_2f depth_value +:+ "m, Confidence: " +:+ pretty p +:+ "%") /\
    (evs <> [] -> PutText (pretty p +:+ "%") (b0 + 10, b1 + 40) ∈ evs) /\
    (evs <> [] -> (render_detection' d w).1 = Ok tt -> exists line, Print line ∈ evs) /\
    p = Fl.Qtrunc (rnd (confidence d * 100)) /\
    ((0 <= confidence d)%Q ->
     (inject_Z p <= rnd (confidence d * 100) /\ rnd (confidence d * 100) < inject_Z (p + 1))%Q) /\
    ((99 # 100 <= confidence d)%Q -> (confidence d <= 9999 # 10000)%Q ->
     pretty p +:+ "%" = "99%").
Proof.
  intros E p. destruct (pixel_box_four d) as (b0 & b1 & b2 & b3 & B).
  exists b0, b1, b2, b3, (overlay' (depth_calculated (vars w)) d).2.*1.
  rewrite (render_detection_overlay d w img E). cbn [fst snd].
  split; [exact B|]. split; [apply annotate_log|].
  unfold overlay. rewrite B.
  destruct (py_getitem labelMap (label d)) as [name|];
    [destruct (bool_decide (name ∈ includedLabels));
       [destruct (depth_calculated (vars w)) as [|a];
          [|destruct (py_getitem2 a (int_half (b1 + b3)) (int_half (b0 + b2))) as [v|]]|]|];
    cbn [fst snd fmap list_fmap app].
  all: refine (conj _ (conj _ (conj _ (conj _ (conj _ (conj _ _)))))).
  all: lazymatch goal with
       | |- forall text org, PutText _ _ ∈ _ -> _ =>
           intros text org Hin Ho; in_cases Hin; try discriminate;
           injection Hin as -> ->;
           first [reflexivity | injection Ho; intros; exfalso; lia]
       | |- forall line, Print _ ∈ _ -> _ =>
           intros line Hin; in_cases Hin; try discriminate;
           injection Hin as ->; eexists _, _; reflexivity
       | |- _ <> [] -> PutText _ _ ∈ _ =>
           intros Hne; first [congruence | rewrite !elem_of_cons; auto 10]
       | |- _ <> [] -> _ = Ok tt -> _ =>
           intros Hne Ho;
           first [congruence
                 | eexists; rewrite !elem_of_cons; do 4 right; left; reflexivity]
       | |- (0 <= _)%Q -> _ => apply percent_bounds
       | |- (_ <= confidence _)%Q -> _ =>
           intros L U; unfold p; rewrite (percent_99 d L U); reflexivity
       | |- _ = _ => reflexivity
       end.
Qed.

End RenderFacts.

Lemma confidence_percent_truncated_witness :
  pretty (percent Fl.binary64 (Oak.person (999 # 1000) (1 # 4) (1 # 4) (1 # 2) (1 # 2))) +:+ "%"
  = "99%".
Proof.
  destruct (confidence_percent_truncated Fl.binary64 Oak.width Oak.height
              Oak.corner_pixels Oak.no_pixels binary64_standard_model
              (Oak.person (999 # 1000) (1 # 4) (1 # 4) (1 # 2) (1 # 2))
              (Oak.after_first_frame (128, 0, 0) (Fl.Finite (13 # 100)) [])
              (replicate 400 (replicate 640 (128, 0, 0)))
              ltac:(reflexivity))
    as (b0 & b1 & b2 & b3 & evs & _ & _ & _ & _ & _ & _ & _ & _ & P).
  apply P; vm_compute; discriminate.
Defined.

(** C6, on the code: an allowed detection whose two y coordinates are
    clamped to 1.0.  The box, the class name and the confidence are drawn;
    then the depth lookup on row 400 raises [IndexError], and neither the
    distance text nor the line on the console is produced.  The exception
    leaves the [for] loop and the iteration: nothing is shown. *)
Lemma allowed_detection_cut_short :
  let d := Oak.person (3 # 4) (1 # 2) 1 (3 # 4) 1 in
  let w := Oak.after_first_frame (128, 0, 0) (Fl.Finite (13 # 100)) [d] in
  let r := render_detection Fl.binary64 Oak.width Oak.height
             Oak.corner_pixels Oak.no_pixels d w in
  let r' := render Fl.binary64 Oak.width Oak.height Oak.corner_pixels Oak.no_pixels w in
  py_getitem labelMap (label d) = Some "person" /\
  bool_decide ("person" ∈ includedLabels) = true /\
  r.1 = Raise IndexError /\
  log r.2 = [Rectangle (320, 400) (420, 400); PutText "person" (330, 420);
             PutText "75%" (330, 440)] /\
  r'.1 = Raise IndexError /\
  log r'.2 = log r.2.
Proof. evaluate. Qed.

(** C7, on the code: rendering one detection turns the pixel at the corner
    of its box green in the very buffer it was given. *)
Lemma render_mutates_buffer :
  let d := Oak.person (3 # 4) (1 # 4) (1 # 4) (1 # 2) (1 # 2) in
  let w := Oak.after_first_frame (128, 0, 0) (Fl.Finite (13 # 100)) [d] in
  let w1 := (render Fl.binary64 Oak.width Oak.height Oak.corner_pixels Oak.no_pixels w).2 in
  (frameDisparity (vars w) ≫= fun img => pixel img 100 220) = Some (128, 0, 0) /\
  (frameDisparity (vars w1) ≫= fun img => pixel img 100 220) = Some (0, 255, 0) /\
  frameDisparity (vars w1) <> frameDisparity (vars w).
Proof.
  intros d w w1.
  assert ((frameDisparity (vars w) ≫= fun img => pixel img 100 220) = Some (128, 0, 0)) as E0
    by (vm_compute; reflexivity).
  assert ((frameDisparity (vars w1) ≫= fun img => pixel img 100 220) = Some (0, 255, 0)) as E1
    by (vm_compute; reflexivity).
  split; [exact E0|]. split; [exact E1|].
  intros E.
  pose proof (f_equal (fun o : option image => o ≫= fun img => pixel img 100 220) E) as X.
  pose proof (eq_trans (eq_sym E1) (eq_trans X E0)) as F.
  discriminate F.
Qed.

(** ** The loop (lines 114-162) *)

(** *** What an action can add to the log *)

Section Appends.

Variable P : event -> Prop.

Lemma appends_ret {A} (a : A) : appends P (mret a).
Proof. intros w. exists []. simpl. now rewrite app_nil_r. Qed.

Lemma appends_raise {A} (e : exn) : appends P (raise (A:=A) e).
Proof. intros w. exists []. simpl. now rewrite app_nil_r. Qed.

Lemma appends_get_vars : appends P get_vars.
Proof. intros w. exists []. simpl. now rewrite app_nil_r. Qed.

Lemma appends_set_vars (f : Vars -> Vars) : appends P (set_vars f).
Proof. intros w. exists []. simpl. now rewrite app_nil_r. Qed.

Lemma appends_emit (e : event) : P e -> appends P (emit e).
Proof. intros He w. exists [e]. simpl. auto. Qed.

Lemma appends_lift_index {A} (o : option A) : appends P (lift_index o).
Proof. destruct o; [apply appends_ret | apply appends_raise]. Qed.

Lemma appends_bind {A B} (m : M A) (k : A -> M B) :
  appends P m -> (forall a, appends P (k a)) -> appends P (m ≫= k).
Proof.
  intros Hm Hk w. destruct (Hm w) as (e1 & L1 & F1).
  unfold mbind, M_bind. destruct (m w) as [[a|e] w1]; simpl in L1.
  - destruct (Hk a w1) as (e2 & L2 & F2). exists (e1 ++ e2).
    rewrite L2, L1, app_assoc. split; [reflexivity | now apply Forall_app].
  - exists e1. auto.
Qed.

Lemma appends_for_each {A} (l : list A) (body : A -> M unit) :
  (forall a, appends P (body a)) -> appends P (for_each l body).
Proof.
  intros Hb. induction l as [|a l IH]; simpl.
  - apply appends_ret.
  - apply appends_bind; auto.
Qed.

End Appends.

Section LoopFacts.

Variable rnd : Q -> Q.
Variable maxDisparity : Q.
Variable focal_length : Q.
Variable resolutionWidth resolutionHeight : Z.
Variable colormap_jet : Z -> color.
Variable rectangle_pixels : point -> point -> Z -> list point.
Variable text_pixels : string -> point -> list point.

#[local] Abbreviation poll' := (poll rnd maxDisparity focal_length colormap_jet).
#[local] Abbreviation rendering :=
  (render rnd resolutionWidth resolutionHeight rectangle_pixels text_pixels).
#[local] Abbreviation tick' :=
  (tick rnd maxDisparity focal_length resolutionWidth resolutionHeight
        colormap_jet rectangle_pixels text_pixels).
#[local] Abbreviation loop' :=
  (loop rnd maxDisparity focal_length resolutionWidth resolutionHeight
        colormap_jet rectangle_pixels text_pixels).
#[local] Abbreviation main' :=
  (main rnd maxDisparity focal_length resolutionWidth resolutionHeight
        colormap_jet rectangle_pixels text_pixels).

Lemma poll_appends (P : event -> Prop) (i : TickIn) :
  (forall data, P (FileWrite data)) -> appends P (poll' i).
Proof.
  intros HP. unfold poll.
  repeat first
    [ apply appends_bind; [|intros ?]
    | apply appends_for_each; intros ?
    | apply appends_emit; apply HP
    | apply appends_ret
    | apply appends_set_vars
    | match goal with |- appends _ (match ?x with _ => _ end) => destruct x end ].
Qed.

Lemma render_appends (P : event -> Prop) :
  (forall e, is_render e = true -> P e) -> appends P rendering.
Proof.
  intros HP.
  assert (forall e pts, is_render e = true -> appends P (draw e pts)) as Hdraw.
  { intros e pts He. unfold draw. apply appends_bind; [apply appends_get_vars|].
    intros s. destruct (frameDisparity s); [|apply appends_raise].
    apply appends_bind; [apply appends_set_vars|]. intros _. apply appends_emit; auto. }
  unfold render. apply appends_bind; [apply appends_get_vars|]. intros s.
  destruct (frameDisparity s); [|apply appends_ret].
  apply appends_bind.
  - apply appends_for_each. intros d. unfold render_detection.
    apply appends_bind; [apply appends_lift_index|]. intros name.
    destruct (bool_decide (name ∈ includedLabels)); [|apply appends_ret].
    destruct (pixel_box rnd resolutionWidth resolutionHeight d) as [|b0 [|b1 [|b2 [|b3 [|? ?]]]]];
      try apply appends_raise.
    unfold cv2_rectangle, cv2_putText, depth_at.
    repeat first
      [ apply appends_bind; [|intros ?]
      | apply Hdraw; reflexivity
      | apply appends_lift_index
      | apply appends_get_vars
      | apply appends_raise
      | apply appends_emit; apply HP; reflexivity
      | match goal with |- appends _ (match ?x with _ => _ end) => destruct x end ].
  - intros _. apply appends_bind; [apply appends_get_vars|]. intros s'.
    destruct (frameDisparity s'); [|apply appends_raise].
    apply appends_emit, HP. reflexivity.
Qed.

Lemma tick_appends (P : event -> Prop) (i : TickIn) :
  (forall data, P (FileWrite data)) -> (forall e, is_render e = true -> P e) ->
  appends P (tick' i).
Proof.
  intros H1 H2. unfold tick.
  apply appends_bind; [now apply poll_appends|]. intros _.
  apply appends_bind; [now apply render_appends|]. intros _.
  apply appends_ret.
Qed.

Lemma loop_appends (P : event -> Prop) (ins : list TickIn) :
  (forall data, P (FileWrite data)) -> (forall e, is_render e = true -> P e) ->
  appends P (loop' ins).
Proof.
  intros H1 H2. induction ins as [|i ins IH]; simpl.
  - apply appends_ret.
  - apply appends_bind; [now apply tick_appends|].
    intros [|]; [apply appends_ret | exact IH].
Qed.

Lemma drain_writes (l : list (list Z)) (w : world) :
  for_each l (fun data => emit (FileWrite data)) w
  = (Ok tt, {| vars := vars w; log := log w ++ (FileWrite <$> l) |}).
Proof.
  revert w. induction l as [|data l IH]; intros w.
  - simpl. rewrite app_nil_r. now destruct w.
  - cbn [for_each]. erewrite bind_ok by reflexivity. rewrite IH. simpl.
    now rewrite <- app_assoc.
Qed.

(** The polling part of an iteration raises nothing, logs the packets it
    wrote to the file, and assigns exactly the variables whose queue had
    something. *)
Lemma poll_run (i : TickIn) (w : world) :
  exists s,
    poll' i w = (Ok tt, {| vars := s; log := log w ++ (FileWrite <$> h265 i) |}) /\
    frame s = from_option Some (frame (vars w)) (inRight i) /\
    frameManip s = from_option Some (frameManip (vars w)) (inManip i) /\
    detections s = default (detections (vars w)) (inDet i) /\
    frameDisparity s
    = from_option
        (fun raw => Some (applyColorMap colormap_jet (elementwise (normalize rnd maxDisparity) raw)))
        (frameDisparity (vars w)) (inDisparity i) /\
    depth_calculated s
    = from_option
        (fun raw => DepthArr (depth_of rnd focal_length (elementwise (normalize rnd maxDisparity) raw)))
        (depth_calculated (vars w)) (inDisparity i).
Proof.
  unfold poll. erewrite bind_ok by apply drain_writes.
  destruct (inRight i), (inManip i), (inDisparity i), (inDet i);
    (eexists; split; [reflexivity|]); repeat split.
Qed.

Lemma tick_unfold (i : TickIn) (w : world) :
  tick' i w =
  match rendering (poll' i w).2 with
  | (Ok _, w2) => (Ok (waitKey i =? ord_q), w2)
  | (Raise e, w2) => (Raise e, w2)
  end.
Proof.
  destruct (poll_run i w) as (s & E & _). unfold tick.
  erewrite bind_ok by exact E. rewrite E. cbn [snd].
  unfold mbind, M_bind. now destruct (rendering _) as [[[]|e] w2].
Qed.

Lemma tick_world (i : TickIn) (w : world) :
  (tick' i w).2 = (rendering (poll' i w).2).2.
Proof. rewrite tick_unfold. now destruct (rendering _) as [[[]|e] w2]. Qed.

Lemma tick_result (i : TickIn) (w : world) (b : bool) :
  (tick' i w).1 = Ok b -> b = (waitKey i =? ord_q).
Proof.
  rewrite tick_unfold. destruct (rendering _) as [[[]|e] w2]; simpl; congruence.
Qed.



Lemma loop_quit (pre post : list TickIn) (iq : TickIn) (w : world) :
  waitKey iq = ord_q -> Forall (fun i => waitKey i <> ord_q) pre ->
  loop' (pre ++ iq :: post) w = loop' (pre ++ [iq]) w /\
  (loop' (pre ++ [iq]) w).1 <> Ok false.
Proof.
  intros Hq Hpre. revert w. induction Hpre as [|i pre Hi _ IH]; intros w; cbn [app loop].
  - destruct (tick' iq w) as [[b|e] w1] eqn:T.
    + pose proof (tick_result iq w b ltac:(now rewrite T)) as ->.
      rewrite !(bind_ok _ _ _ _ _ T), Hq, Z.eqb_refl.
      split; [reflexivity | discriminate].
    + rewrite !(bind_raise _ _ _ _ _ T). split; [reflexivity | discriminate].
  - destruct (tick' i w) as [[b|e] w1] eqn:T.
    + pose proof (tick_result i w b ltac:(now rewrite T)) as ->.
      rewrite !(bind_ok _ _ _ _ _ T).
      destruct (Z.eqb_spec (waitKey i) ord_q); [contradiction | apply IH].
    + rewrite !(bind_raise _ _ _ _ _ T). split; [reflexivity | discriminate].
Qed.

Lemma main_unfold (ins : list TickIn) (w : world) :
  main' ins w =
  match loop' ins {| vars := vars w; log := (log w ++ [FileOpen]) ++ [NamedWindow] |} with
  | (Ok true, w') =>
      (Ok true,
       {| vars := vars w';
          log := (log w' ++ [Print "To view the encoded data, convert the stream file (.h265) into a video file (.mp4) using a command below:"])
                   ++ [Print "ffmpeg -framerate 30 -i video.h265 -c copy video.mp4"] |})
  | (Ok false, w') => (Ok false, w')
  | (Raise e, w') => (Raise e, w')
  end.
Proof.
  unfold main. do 2 erewrite bind_ok by reflexivity.
  unfold mbind at 1, M_bind at 1. cbn [vars log].
  destruct (loop' ins _) as [[[|]|e] w']; reflexivity.
Qed.

Lemma main_appends (P : event -> Prop) (ins : list TickIn) :
  (forall e, is_close e = false -> P e) -> appends P (main' ins).
Proof.
  intros HP. unfold main.
  apply appends_bind; [now apply appends_emit, HP|]. intros _.
  apply appends_bind; [now apply appends_emit, HP|]. intros _.
  apply appends_bind.
  - apply loop_appends; [intros; now apply HP|].
    intros [] He; try discriminate; now apply HP.
  - intros [|]; [|apply appends_ret].
    apply appends_bind; [now apply appends_emit, HP|]. intros _.
    apply appends_bind; [now apply appends_emit, HP|]. intros _.
    apply appends_ret.
Qed.

Lemma count_none (f : event -> bool) (l : list event) :
  Forall (fun e => f e = false) l -> count f l = 0%nat.
Proof.
  unfold count. induction 1 as [|e l He _ IH]; [reflexivity|].
  rewrite filter_cons. destruct (decide (f e = true)); [congruence | exact IH].
Qed.

(** C9, as the code has it: the iteration that reads [q] is the last one.
    Whatever the queues hold afterwards is not read, the loop is left (or an
    exception has ended the script before), and after the loop only the two
    closing messages are printed: nothing more is written to the file.  The
    script never closes the file itself: no close is logged, on any run. *)
Theorem quit_leaves_loop (pre post : list TickIn) (iq : TickIn) :
  waitKey iq = ord_q ->
  Forall (fun i => waitKey i <> ord_q) pre ->
  let opened := {| vars := initial_vars; log := [FileOpen; NamedWindow] |} in
  let r := main' (pre ++ iq :: post) initial_world in
  r = main' (pre ++ [iq]) initial_world /\
  (r.1 = Ok true \/ exists e, r.1 = Raise e) /\
  (r.1 = Ok true ->
   log r.2 =
   log (loop' (pre ++ [iq]) opened).2
     ++ [Print "To view the encoded data, convert the stream file (.h265) into a video file (.mp4) using a command below:";
         Print "ffmpeg -framerate 30 -i video.h265 -c copy video.mp4"]) /\
  count is_close (log r.2) = 0%nat.
Proof.
  intros Hq Hpre opened r.
  assert (r = main' (pre ++ [iq]) initial_world) as E.
  { unfold r. rewrite !main_unfold.
    now destruct (loop_quit pre post iq
                    {| vars := vars initial_world;
                       log := (log initial_world ++ [FileOpen]) ++ [NamedWindow] |}
                    Hq Hpre) as [-> _]. }
  split; [exact E|].
  destruct (loop_quit pre post iq opened Hq Hpre) as [_ NF].
  assert (r.1 = Ok true \/ exists e, r.1 = Raise e) as O.
  { rewrite E, main_unfold. change {| vars := vars initial_world; log := _ |} with opened.
    destruct (loop' (pre ++ [iq]) opened) as [[[|]|e] w']; cbn [fst] in *; eauto.
    congruence. }
  split; [exact O|]. split.
  - rewrite E, main_unfold. change {| vars := vars initial_world; log := _ |} with opened.
    destruct (loop' (pre ++ [iq]) opened) as [[[|]|e] w']; cbn [fst snd log];
      try discriminate.
    intros _. now rewrite <- app_assoc.
  - destruct (main_appends (fun e => is_close e = false) (pre ++ iq :: post)
                ltac:(auto) initial_world) as (evs & L & F).
    fold r in L. rewrite L. simpl. now apply count_none.
Qed.

End LoopFacts.

Lemma quit_leaves_loop_witness :
  count is_close
    (log (main Fl.binary64 96 450 Oak.width Oak.height Oak.gray_table
            Oak.corner_pixels Oak.no_pixels
            ([] ++ Oak.quit_tick :: [Oak.quit_tick]) initial_world).2) = 0%nat.
Proof.
  apply (quit_leaves_loop Fl.binary64 96 450 Oak.width Oak.height Oak.gray_table
           Oak.corner_pixels Oak.no_pixels [] [Oak.quit_tick] Oak.quit_tick).
  - reflexivity.
  - constructor.
Defined.

(** C9, on the code: [q] is pressed in the first iteration.  The loop is
    left, the two messages are printed, and the log holds no close of the
    file, where the claim has exactly one. *)
Lemma file_never_closed :
  let r := main Fl.binary64 96 450 Oak.width Oak.height Oak.gray_table
             Oak.corner_pixels Oak.no_pixels [Oak.quit_tick] initial_world in
  r.1 = Ok true /\
  log r.2 =
    [FileOpen; NamedWindow;
     Print "To view the encoded data, convert the stream file (.h265) into a video file (.mp4) using a command below:";
     Print "ffmpeg -framerate 30 -i video.h265 -c copy video.mp4"] /\
  count is_close (log r.2) = 0%nat /\
  count is_close (log r.2) <> 1%nat.
Proof.
  intros r.
  assert (count is_close (log r.2) = 0%nat) as C by (vm_compute; reflexivity).
  split; [vm_compute; reflexivity|]. split; [vm_compute; reflexivity|].
  split; [exact C | rewrite C; discriminate].
Qed.

(** * Further properties of the script *)

(** ** [frameNorm] on any frame and any list of coordinates (lines 106-109) *)

Section FrameNormFacts.

Variable rnd : Q -> Q.
Hypothesis Hrnd : Fl.standard_model rnd.

(** One coordinate of [frameNorm]'s result, for the dimension [dim]. *)
#[local] Abbreviation to_pixels dim v :=
  (Fl.Qtrunc (rnd (Fl.clip v 0 1 * inject_Z dim))).

Lemma frameNorm_lookup (h w : Z) (bbox : list Q) (i : nat) :
  frameNorm rnd (h, w) bbox !! i
  = (fun v => to_pixels (if Nat.even i then w else h) v) <$> bbox !! i.
Proof.
  unfold frameNorm. rewrite lookup_zip_with, list_lookup_imap. cbn [fst snd].
  destruct (bbox !! i) as [v|] eqn:E; [|reflexivity]. cbn [mbind option_bind].
  rewrite lookup_replicate_2 by (now apply lookup_lt_Some in E).
  cbn. now destruct (Nat.even i).
Qed.

Lemma product_with_dim (dim : Z) (v : Q) :
  0 <= dim ->
  (0 <= Fl.clip v 0 1 * inject_Z dim /\ Fl.clip v 0 1 * inject_Z dim <= inject_Z dim)%Q.
Proof.
  intros Hd. pose proof (clip_unit v) as [C0 C1].
  assert (0 <= inject_Z dim)%Q as HD by (rewrite <- (Zle_Qle 0); lia).
  split; [now apply Qmult_le_0_compat|].
  setoid_replace (inject_Z dim) with (1 * inject_Z dim)%Q using relation Qeq at 2 by ring.
  now apply Qmult_le_compat_r.
Qed.

Lemma to_pixels_bounds (dim : Z) (v : Q) :
  0 <= dim <= 2 ^ 53 -> 0 <= to_pixels dim v <= dim.
Proof.
  intros [D0 D1]. destruct (product_with_dim dim v D0) as [P0 P1].
  pose proof (rnd_nonneg rnd Hrnd _ P0) as R0.
  pose proof (Fl.rnd_mono _ Hrnd _ _ P1) as R1.
  rewrite (rnd_int rnd Hrnd dim) in R1 by lia.
  split; [now apply Qtrunc_bounds | now apply Qtrunc_le_int].
Qed.

Lemma clip_mono (u v : Q) : (u <= v)%Q -> (Fl.clip u 0 1 <= Fl.clip v 0 1)%Q.
Proof.
  intros H. unfold Fl.clip.
  apply Q.min_le_compat_r, Q.max_le_compat_r, H.
Qed.

Lemma to_pixels_mono (dim : Z) (u v : Q) :
  0 <= dim -> (u <= v)%Q -> to_pixels dim u <= to_pixels dim v.
Proof.
  intros D H. destruct (product_with_dim dim u D) as [P0 _].
  apply Qtrunc_mono; [now apply (rnd_nonneg rnd Hrnd)|].
  apply (Fl.rnd_mono _ Hrnd), Qmult_le_compat_r; [now apply clip_mono|].
  rewrite <- (Zle_Qle 0). lia.
Qed.

Lemma to_pixels_low (dim : Z) (v : Q) : (v <= 0)%Q -> to_pixels dim v = 0.
Proof.
  intros H.
  assert (Fl.clip v 0 1 == 0)%Q as C.
  { unfold Fl.clip. rewrite (Q.max_r v 0 H). now apply Q.min_l. }
  assert (Fl.clip v 0 1 * inject_Z dim == inject_Z 0)%Q as E by (rewrite C; ring).
  pose proof (rnd_proper rnd Hrnd _ _ E) as R.
  rewrite (rnd_int rnd Hrnd 0) in R by (cbn; lia).
  rewrite (Qtrunc_proper _ (inject_Z 0)); [apply Qtrunc_int | rewrite R; apply Qle_refl | exact R].
Qed.

Lemma to_pixels_high (dim : Z) (v : Q) :
  0 <= dim <= 2 ^ 53 -> (1 <= v)%Q -> to_pixels dim v = dim.
Proof.
  intros [D0 D1] H.
  assert (Fl.clip v 0 1 == 1)%Q as C.
  { unfold Fl.clip. apply Q.min_r. apply Qle_trans with v; [assumption | apply Q.le_max_l]. }
  assert (Fl.clip v 0 1 * inject_Z dim == inject_Z dim)%Q as E by (rewrite C; ring).
  pose proof (rnd_proper rnd Hrnd _ _ E) as R.
  rewrite (rnd_int rnd Hrnd dim) in R by lia.
  assert (0 <= inject_Z dim)%Q as HD by (rewrite <- (Zle_Qle 0); lia).
  rewrite (Qtrunc_proper _ (inject_Z dim)); [apply Qtrunc_int | rewrite R; exact HD | exact R].
Qed.

(** X1: for a frame of any shape and a coordinate list of any length,
    [frameNorm] returns as many integers as it was given coordinates; those
    at even positions lie between 0 and the frame's width, those at odd
    positions between 0 and its height. *)
Theorem frameNorm_within_frame (h w : Z) (bbox : list Q) :
  0 <= h <= 2 ^ 53 -> 0 <= w <= 2 ^ 53 ->
  length (frameNorm rnd (h, w) bbox) = length bbox /\
  forall (i : nat) (p : Z),
    frameNorm rnd (h, w) bbox !! i = Some p ->
    0 <= p <= (if Nat.even i then w else h).
Proof.
  intros Hh Hw. split.
  - unfold frameNorm. rewrite length_zip_with, length_imap, length_replicate. lia.
  - intros i p. rewrite frameNorm_lookup. intros E.
    apply fmap_Some in E as (v & _ & ->).
    destruct (Nat.even i); now apply to_pixels_bounds.
Qed.

(** X2: [frameNorm] saturates.  A coordinate at or below 0 becomes pixel 0,
    and a coordinate at or above 1 becomes the full dimension of its axis,
    which is one past the last row or column of the frame. *)
Theorem frameNorm_saturates (h w : Z) (bbox : list Q) (i : nat) (v : Q) :
  0 <= h <= 2 ^ 53 -> 0 <= w <= 2 ^ 53 ->
  bbox !! i = Some v ->
  ((v <= 0)%Q -> frameNorm rnd (h, w) bbox !! i = Some 0) /\
  ((1 <= v)%Q -> frameNorm rnd (h, w) bbox !! i = Some (if Nat.even i then w else h)).
Proof.
  intros Hh Hw E. rewrite frameNorm_lookup, E. cbn. split; intros Hv.
  - now rewrite to_pixels_low.
  - destruct (Nat.even i); now rewrite to_pixels_high.
Qed.

(** X3: the pixel box keeps the order of the corners, and the sampled centre
    lies inside the box: if [xmin <= xmax] then
    [bbox[0] <= center_x <= bbox[2]], and likewise for y. *)
Theorem pixel_box_ordered (resolutionWidth resolutionHeight : Z) (d : Detection) :
  0 <= resolutionHeight <= resolutionWidth ->
  exists b0 b1 b2 b3,
    pixel_box rnd resolutionWidth resolutionHeight d = [b0; b1; b2; b3] /\
    ((xmin d <= xmax d)%Q -> b0 <= int_half (b0 + b2) <= b2) /\
    ((ymin d <= ymax d)%Q -> b1 <= int_half (b1 + b3) <= b3).
Proof.
  intros [H0 HW].
  exists (to_pixels resolutionHeight (xmin d) + offsetX resolutionWidth resolutionHeight),
         (to_pixels resolutionHeight (ymin d)),
         (to_pixels resolutionHeight (xmax d) + offsetX resolutionWidth resolutionHeight),
         (to_pixels resolutionHeight (ymax d)).
  split; [reflexivity|].
  assert (0 <= offsetX resolutionWidth resolutionHeight) as O
    by (unfold offsetX; apply Z.div_pos; lia).
  assert (forall v, 0 <= to_pixels resolutionHeight v) as P.
  { intros v. destruct (product_with_dim resolutionHeight v H0) as [P0 _].
    apply Qtrunc_bounds. now apply (rnd_nonneg rnd Hrnd). }
  assert (forall a b, 0 <= a <= b -> a <= int_half (a + b) <= b) as Mid.
  { intros a b Hab. unfold int_half. rewrite Z.quot_div_nonneg by lia. split.
    - apply Z.div_le_lower_bound; lia.
    - apply Z.div_le_upper_bound; lia. }
  split; intros Hle; apply Mid.
  - pose proof (to_pixels_mono resolutionHeight _ _ H0 Hle). pose proof (P (xmin d)). lia.
  - pose proof (to_pixels_mono resolutionHeight _ _ H0 Hle). pose proof (P (ymin d)). lia.
Qed.

End FrameNormFacts.

(** ** The conversion of a disparity frame (lines 129-136) *)

Lemma row_lengths_elementwise {A B} (f : A -> B) (a : list (list A)) :
  row_lengths (elementwise f a) = row_lengths a.
Proof.
  unfold row_lengths, elementwise. rewrite <- list_fmap_compose.
  apply list_fmap_ext. intros i row _. simpl. apply length_fmap.
Qed.

Section ConversionFacts.

Variable rnd : Q -> Q.
Hypothesis Hrnd : Fl.standard_model rnd.
Variable maxDisparity : Q.
Hypothesis maxDisparity_pos : (0 < maxDisparity)%Q.
Variable focal_length : Q.
Hypothesis focal_length_pos : (0 < focal_length)%Q.
Variable colormap_jet : Z -> color.

(** The two array statements of lines 134-135 amount to one operation per
    sample. *)
Lemma depth_of_elementwise (fd : gray) :
  depth_of rnd focal_length fd = elementwise (depth_sample rnd focal_length) fd.
Proof.
  unfold depth_of, elementwise. rewrite zip_with_fmap_r, zip_with_diag.
  apply list_fmap_ext. intros i row _.
  rewrite zip_with_fmap_r, zip_with_diag. reflexivity.
Qed.

(** X4: converting a raw disparity frame keeps its shape, whatever the
    frame (empty and ragged frames included): the normalised frame, the depth
    map and the colourised image all have the rows of the raw frame, each of
    the same length. *)
Theorem conversion_keeps_shape (raw : gray) :
  let fd := elementwise (normalize rnd maxDisparity) raw in
  row_lengths fd = row_lengths raw /\
  row_lengths (depth_of rnd focal_length fd) = row_lengths raw /\
  row_lengths (applyColorMap colormap_jet fd) = row_lengths raw.
Proof.
  intros fd. unfold fd, applyColorMap.
  rewrite depth_of_elementwise, !row_lengths_elementwise. auto.
Qed.

(** X5: the depth of a non-zero byte lies between the depth of byte 255 and
    the depth of byte 1: the range of distances the script can report. *)
Theorem depth_range (n : Z) :
  0 < n <= 255 ->
  exists q lo hi,
    depth_sample rnd focal_length n = Fl.Finite q /\
    depth_sample rnd focal_length 255 = Fl.Finite lo /\
    depth_sample rnd focal_length 1 = Fl.Finite hi /\
    (0 < lo)%Q /\ (lo <= q)%Q /\ (q <= hi)%Q.
Proof.
  intros [N0 N1].
  rewrite !(depth_sample_nonzero rnd focal_length) by lia.
  eexists _, _, _. do 3 (split; [reflexivity|]).
  pose proof (fb_pos rnd Hrnd focal_length focal_length_pos) as F.
  set (fb := rnd (focal_length * baseline rnd)) in *.
  assert (forall a b : Z, 0 < a <= b -> (fb / inject_Z b <= fb / inject_Z a)%Q) as Anti.
  { intros a b [A0 AB].
    assert (0 < inject_Z a)%Q by (rewrite <- (Zlt_Qlt 0); lia).
    assert (0 < inject_Z b)%Q by (rewrite <- (Zlt_Qlt 0); lia).
    assert (inject_Z a <= inject_Z b)%Q by (now rewrite <- Zle_Qle).
    apply Qle_shift_div_r; [assumption|].
    setoid_replace (fb / inject_Z a * inject_Z b)%Q
      with (fb * (inject_Z b / inject_Z a))%Q using relation Qeq by (field; lra).
    setoid_replace fb with (fb * 1)%Q using relation Qeq at 1 by ring.
    rewrite !(Qmult_comm fb). apply Qmult_le_compat_r; [|lra].
    apply Qle_shift_div_l; lra. }
  split; [|split].
  - apply (rnd_pos rnd Hrnd). apply Qlt_shift_div_l; [reflexivity | lra].
  - apply (Fl.rnd_mono _ Hrnd), Anti. lia.
  - apply (Fl.rnd_mono _ Hrnd), Anti. lia.
Qed.

(** X6: a raw sample within the disparity range is normalised to 0, and its
    depth reported as 0, exactly when the scaled sample
    [raw * disparityMultiplier] is below 1; a raw sample of 0 always is. *)
Theorem zero_depth_below_one (raw : Z) :
  0 <= raw -> (inject_Z raw <= maxDisparity)%Q ->
  let p := rnd (inject_Z raw * disparityMultiplier rnd maxDisparity) in
  (normalize rnd maxDisparity raw = 0 <-> (p < 1)%Q) /\
  (raw = 0 -> normalize rnd maxDisparity raw = 0) /\
  exists q,
    depth_sample rnd focal_length (normalize rnd maxDisparity raw) = Fl.Finite q /\
    ((q == 0)%Q <-> (p < 1)%Q).
Proof.
  intros Hraw Hle p.
  pose proof (normalize_in_range rnd Hrnd maxDisparity maxDisparity_pos raw Hraw Hle) as E.
  fold p in E.
  pose proof (product_nonneg rnd Hrnd maxDisparity maxDisparity_pos raw Hraw) as P0.
  fold p in P0.
  assert (normalize rnd maxDisparity raw = 0 <-> (p < 1)%Q) as Z0.
  { rewrite E. split.
    - intros F. pose proof (Qlt_floor p) as U. rewrite F in U. exact U.
    - intros U. pose proof (Qfloor_le p) as L.
      assert (0 <= Qfloor p) by (rewrite <- (Qfloor_Z 0); now apply Qfloor_resp_le).
      assert (inject_Z (Qfloor p) < inject_Z 1)%Q as S by (change (inject_Z 1) with 1%Q; lra).
      rewrite <- Zlt_Qlt in S. lia. }
  split; [exact Z0|]. split.
  - intros ->. apply Z0. unfold p.
    assert (inject_Z 0 * disparityMultiplier rnd maxDisparity == inject_Z 0)%Q as E0 by ring.
    rewrite (rnd_proper rnd Hrnd _ _ E0), (rnd_int rnd Hrnd 0) by (cbn; lia). reflexivity.
  - destruct (depth_sample_cases rnd Hrnd focal_length focal_length_pos
                (normalize rnd maxDisparity raw)) as (q & D & Q0 & _).
    { pose proof (normalized_byte rnd maxDisparity raw). lia. }
    exists q. split; [exact D|]. now rewrite Q0.
Qed.

End ConversionFacts.

Lemma depth_range_witness :
  exists q lo hi,
    depth_sample Fl.binary64 450 100 = Fl.Finite q /\
    depth_sample Fl.binary64 450 255 = Fl.Finite lo /\
    depth_sample Fl.binary64 450 1 = Fl.Finite hi /\
    (0 < lo)%Q /\ (lo <= q)%Q /\ (q <= hi)%Q.
Proof.
  apply (depth_range Fl.binary64 binary64_standard_model 450 ltac:(reflexivity) 100). lia.
Defined.

Lemma zero_depth_below_one_witness :
  normalize Fl.binary64 760 2 = 0 <->
  (Fl.binary64 (inject_Z 2 * disparityMultiplier Fl.binary64 760) < 1)%Q.
Proof.
  apply (zero_depth_below_one Fl.binary64 binary64_standard_model 760 ltac:(reflexivity)
           450 ltac:(reflexivity) 2 ltac:(lia) ltac:(vm_compute; discriminate)).
Defined.

Lemma frameNorm_within_frame_witness :
  length (frameNorm Fl.binary64 (400, 640) [1 # 3; 2 # 3; 5 # 4]) = 3%nat.
Proof.
  apply (frameNorm_within_frame Fl.binary64 binary64_standard_model 400 640
           [1 # 3; 2 # 3; 5 # 4]); lia.
Defined.

Lemma frameNorm_saturates_witness :
  frameNorm Fl.binary64 (400, 640) [1 # 3; 13 # 10] !! 1%nat = Some 400.
Proof.
  apply (frameNorm_saturates Fl.binary64 binary64_standard_model 400 640
           [1 # 3; 13 # 10] 1%nat (13 # 10)
           ltac:(lia) ltac:(lia) ltac:(reflexivity)).
  vm_compute. discriminate.
Defined.

Lemma pixel_box_ordered_witness :
  exists b0 b1 b2 b3,
    pixel_box Fl.binary64 Oak.width Oak.height
      (Oak.person (3 # 4) (1 # 4) (1 # 4) (1 # 2) (1 # 2)) = [b0; b1; b2; b3] /\
    ((1 # 4 <= 1 # 2)%Q -> b0 <= int_half (b0 + b2) <= b2) /\
    ((1 # 4 <= 1 # 2)%Q -> b1 <= int_half (b1 + b3) <= b3).
Proof.
  apply (pixel_box_ordered Fl.binary64 binary64_standard_model Oak.width Oak.height
           (Oak.person (3 # 4) (1 # 4) (1 # 4) (1 # 2) (1 # 2))).
  unfold Oak.width, Oak.height. lia.
Defined.

(** ** One detection (lines 143-153) *)

Lemma py_getitem_out_of_range {A} (l : list A) (i : Z) :
  i < - Z.of_nat (length l) \/ Z.of_nat (length l) <= i -> py_getitem l i = None.
Proof.
  intros Hi. unfold py_getitem.
  destruct (Z.leb_spec 0 i), (Z.ltb_spec i (Z.of_nat (length l))),
    (Z.leb_spec (- Z.of_nat (length l)) i), (Z.ltb_spec i 0); cbn; try reflexivity; lia.
Qed.

Lemma py_getitem_wraps {A} (l : list A) (i : Z) :
  - Z.of_nat (length l) <= i < Z.of_nat (length l) -> is_Some (py_getitem l i).
Proof.
  intros Hi. unfold py_getitem.
  destruct (Z.leb_spec 0 i), (Z.ltb_spec i (Z.of_nat (length l))),
    (Z.leb_spec (- Z.of_nat (length l)) i), (Z.ltb_spec i 0); cbn; try lia;
    apply lookup_lt_is_Some_2; lia.
Qed.

Lemma label_allowed_ids (l : Z) :
  label_allowed l = true <->
  l ∈ [0; 1; 2; 6; 7; 14; 15; 19] \/ l ∈ [-21; -20; -19; -15; -14; -7; -6; -2].
Proof.
  destruct (decide (-21 <= l <= 20)) as [R|R].
  - assert (l ∈ seqZ (-21) 42) as Hin by (apply elem_of_seqZ; lia).
    assert (Forall (fun l => label_allowed l = true <->
                      l ∈ [0; 1; 2; 6; 7; 14; 15; 19] \/
                      l ∈ [-21; -20; -19; -15; -14; -7; -6; -2]) (seqZ (-21) 42)) as F.
    { let ids := eval vm_compute in (seqZ (-21) 42) in change (seqZ (-21) 42) with ids.
      repeat (constructor;
              [cbn beta;
               match goal with
               | |- label_allowed ?x = true <-> _ =>
                   let b := eval vm_compute in (label_allowed x) in
                   change (label_allowed x) with b
               end;
               split;
               [ intros E; first [discriminate E | rewrite !elem_of_cons; lia]
               | intros [H|H]; in_cases H; first [reflexivity | discriminate H] ]|]).
      constructor. }
    rewrite Forall_forall in F. now apply F.
  - split.
    + unfold label_allowed.
      rewrite py_getitem_out_of_range by (change (Z.of_nat (length labelMap)) with 21; lia).
      discriminate.
    + intros [H|H]; in_cases H; lia.
Qed.

Section DetectionFacts.

Variable rnd : Q -> Q.
Hypothesis Hrnd : Fl.standard_model rnd.
Variable resolutionWidth resolutionHeight : Z.
Variable rectangle_pixels : point -> point -> Z -> list point.
Variable text_pixels : string -> point -> list point.

#[local] Abbreviation run_detection :=
  (render_detection rnd resolutionWidth resolutionHeight rectangle_pixels text_pixels).
#[local] Abbreviation summary :=
  (overlay rnd resolutionWidth resolutionHeight rectangle_pixels text_pixels).

(** X7: a detection whose label is outside [[-21, 20]] raises [IndexError]
    before anything is drawn or printed; a label in that range whose name is
    not in [includedLabels] is skipped, leaving the buffer and the log as
    they were.  The labels that are rendered are 0, 1, 2, 6, 7, 14, 15 and
    19, and the negative indices that Python maps to the same names. *)
Theorem detection_skipped (d : Detection) (w : world) :
  (label d < -21 \/ 20 < label d -> run_detection d w = (Raise IndexError, w)) /\
  (-21 <= label d <= 20 -> label_allowed (label d) = false ->
   run_detection d w = (Ok tt, w)) /\
  (label_allowed (label d) = true <->
   label d ∈ [0; 1; 2; 6; 7; 14; 15; 19] \/
   label d ∈ [-21; -20; -19; -15; -14; -7; -6; -2]).
Proof.
  split; [|split; [|apply label_allowed_ids]].
  - intros R. unfold render_detection.
    rewrite py_getitem_out_of_range
      by (change (Z.of_nat (length labelMap)) with 21; lia).
    reflexivity.
  - intros R. unfold label_allowed, render_detection.
    destruct (py_getitem labelMap (label d)) as [name|] eqn:L.
    + intros A. erewrite bind_ok by reflexivity. now rewrite A.
    + exfalso. destruct (py_getitem_wraps labelMap (label d)) as [x Hx].
      * change (Z.of_nat (length labelMap)) with 21. lia.
      * congruence.
Qed.

(** X8: an allowed detection whose centre is a sample of the depth map is
    rendered completely and raises nothing: the log grows by exactly the
    box, the class name, the confidence, the distance read at the centre and
    the printed line, in this order, the three texts 20, 40 and 60 pixels
    below the corner of the box and 10 to its right; no variable other than
    the buffer changes. *)
Theorem detection_rendered (d : Detection) (w : world) (img : image)
    (a : list (list Fl.np_float)) (b0 b1 b2 b3 : Z) (v : Fl.np_float) :
  frameDisparity (vars w) = Some img ->
  depth_calculated (vars w) = DepthArr a ->
  label_allowed (label d) = true ->
  pixel_box rnd resolutionWidth resolutionHeight d = [b0; b1; b2; b3] ->
  py_getitem2 a (int_half (b1 + b3)) (int_half (b0 + b2)) = Some v ->
  exists name,
    py_getitem labelMap (label d) = Some name /\
    (run_detection d w).1 = Ok tt /\
    log (run_detection d w).2 =
      log w ++
      [Rectangle (b0, b1) (b2, b3);
       PutText name (b0 + 10, b1 + 20);
       PutText (pretty (percent rnd d) +:+ "%") (b0 + 10, b1 + 40);
       PutText (Fl.format_2f v +:+ "m") (b0 + 10, b1 + 60);
       Print (observability_line name v (percent rnd d))] /\
    frame (vars (run_detection d w).2) = frame (vars w) /\
    frameManip (vars (run_detection d w).2) = frameManip (vars w) /\
    detections (vars (run_detection d w).2) = detections (vars w) /\
    depth_calculated (vars (run_detection d w).2) = depth_calculated (vars w).
Proof.
  intros E D A B G. unfold label_allowed in A.
  destruct (py_getitem labelMap (label d)) as [name|] eqn:L; [|discriminate].
  exists name. split; [reflexivity|].
  rewrite (render_detection_overlay _ _ _ _ _ d w img E). cbn [fst snd].
  unfold overlay. rewrite L, A, B, D, G. cbn [fst snd].
  split; [reflexivity|]. split; [reflexivity|]. rewrite <- D. apply annotate_other_vars.
Qed.

Hypothesis wider_than_tall : 0 < resolutionHeight < resolutionWidth.
Hypothesis resolution_small : resolutionHeight <= 2 ^ 53.

Lemma center_bounds (d : Detection) (b0 b1 b2 b3 : Z) :
  pixel_box rnd resolutionWidth resolutionHeight d = [b0; b1; b2; b3] ->
  0 <= int_half (b0 + b2) < resolutionWidth /\
  0 <= int_half (b1 + b3) <= resolutionHeight /\
  (int_half (b1 + b3) = resolutionHeight <->
   b1 = resolutionHeight /\ b3 = resolutionHeight).
Proof.
  assert (0 < resolutionHeight <= resolutionWidth) as WT by lia.
  rewrite (pixel_box_eq rnd resolutionWidth resolutionHeight d). intros B.
  injection B as <- <- <- <-.
  pose proof (scaled_bounds rnd Hrnd _ _ WT resolution_small (xmin d)).
  pose proof (scaled_bounds rnd Hrnd _ _ WT resolution_small (ymin d)).
  pose proof (scaled_bounds rnd Hrnd _ _ WT resolution_small (xmax d)).
  pose proof (scaled_bounds rnd Hrnd _ _ WT resolution_small (ymax d)).
  pose proof (offset_bounds resolutionWidth resolutionHeight WT) as (O1 & O2 & O3).
  specialize (O3 ltac:(lia)).
  unfold int_half. rewrite !Z.quot_div_nonneg by lia.
  generalize dependent (Fl.Qtrunc (rnd (Fl.clip (xmin d) 0 1 * inject_Z resolutionHeight))).
  generalize dependent (Fl.Qtrunc (rnd (Fl.clip (ymin d) 0 1 * inject_Z resolutionHeight))).
  generalize dependent (Fl.Qtrunc (rnd (Fl.clip (xmax d) 0 1 * inject_Z resolutionHeight))).
  generalize dependent (Fl.Qtrunc (rnd (Fl.clip (ymax d) 0 1 * inject_Z resolutionHeight))).
  intros y1 Hy1 x1 Hx1 y0 Hy0 x0 Hx0.
  Z.to_euclidean_division_equations. lia.
Qed.

(** X9: on a depth map of the sensor's size (height rows of width samples,
    the sensor wider than tall), rendering an allowed detection fails in
    exactly one case: both y coordinates of its pixel box equal the height.
    It then raises [IndexError] after three of the five calls (box, class
    name, confidence); in every other case it raises nothing. *)
Theorem detection_fails_on_bottom_edge (d : Detection) (w : world) (img : image)
    (a : list (list Fl.np_float)) (b0 b1 b2 b3 : Z) :
  frameDisparity (vars w) = Some img ->
  depth_calculated (vars w) = DepthArr a ->
  Z.of_nat (length a) = resolutionHeight ->
  Forall (fun row => Z.of_nat (length row) = resolutionWidth) a ->
  label_allowed (label d) = true ->
  pixel_box rnd resolutionWidth resolutionHeight d = [b0; b1; b2; b3] ->
  (b1 = resolutionHeight /\ b3 = resolutionHeight ->
   (run_detection d w).1 = Raise IndexError /\
   length (log (run_detection d w).2) = (length (log w) + 3)%nat) /\
  (~ (b1 = resolutionHeight /\ b3 = resolutionHeight) ->
   (run_detection d w).1 = Ok tt /\
   length (log (run_detection d w).2) = (length (log w) + 5)%nat).
Proof.
  intros E D Rows Cols A B.
  destruct (center_bounds d b0 b1 b2 b3 B) as (Cx & Cy & Edge).
  unfold label_allowed in A.
  destruct (py_getitem labelMap (label d)) as [name|] eqn:L; [|discriminate].
  rewrite (render_detection_overlay _ _ _ _ _ d w img E). cbn [fst snd].
  unfold overlay. rewrite L, A, B, D. split.
  - intros Hb. apply Edge in Hb.
    assert (py_getitem2 a (int_half (b1 + b3)) (int_half (b0 + b2)) = None) as ->.
    { unfold py_getitem2. rewrite py_getitem_past_end by lia. reflexivity. }
    cbn [fst snd]. split; [reflexivity|].
    rewrite annotate_log, length_app. reflexivity.
  - intros Hb. rewrite <- Edge in Hb.
    destruct (py_getitem2_in_range a resolutionHeight resolutionWidth
                (int_half (b1 + b3)) (int_half (b0 + b2)) Rows Cols ltac:(lia) Cx) as [v ->].
    cbn [fst snd]. split; [reflexivity|].
    rewrite annotate_log, length_app. reflexivity.
Qed.

End DetectionFacts.

Lemma detection_rendered_witness :
  exists name,
    py_getitem labelMap 15 = Some name /\
    (render_detection Fl.binary64 Oak.width Oak.height Oak.corner_pixels Oak.no_pixels
       (Oak.person (3 # 4) (1 # 4) (1 # 4) (1 # 2) (1 # 2))
       (Oak.after_first_frame (128, 0, 0) (Fl.Finite (13 # 100)) [])).1 = Ok tt.
Proof.
  destruct (detection_rendered Fl.binary64 Oak.width Oak.height
              Oak.corner_pixels Oak.no_pixels
              (Oak.person (3 # 4) (1 # 4) (1 # 4) (1 # 2) (1 # 2))
              (Oak.after_first_frame (128, 0, 0) (Fl.Finite (13 # 100)) [])
              (replicate 400 (replicate 640 (128, 0, 0)))
              (replicate 400 (replicate 640 (Fl.Finite (13 # 100))))
              220 100 320 200 (Fl.Finite (13 # 100))
              ltac:(reflexivity) ltac:(reflexivity) ltac:(vm_compute; reflexivity)
              ltac:(vm_compute; reflexivity) ltac:(vm_compute; reflexivity))
    as (name & L & O & _).
  exists name. split; [exact L | exact O].
Defined.

Lemma detection_fails_on_bottom_edge_witness :
  (render_detection Fl.binary64 Oak.width Oak.height Oak.corner_pixels Oak.no_pixels
     (Oak.person (3 # 4) (1 # 4) (1 # 4) (1 # 2) (1 # 2))
     (Oak.after_first_frame (128, 0, 0) (Fl.Finite (13 # 100)) [])).1 = Ok tt.
Proof.
  apply (detection_fails_on_bottom_edge Fl.binary64 binary64_standard_model
           Oak.width Oak.height Oak.corner_pixels Oak.no_pixels
           ltac:(unfold Oak.width, Oak.height; lia) ltac:(unfold Oak.height; lia)
           (Oak.person (3 # 4) (1 # 4) (1 # 4) (1 # 2) (1 # 2))
           (Oak.after_first_frame (128, 0, 0) (Fl.Finite (13 # 100)) [])
           (replicate 400 (replicate 640 (128, 0, 0)))
           (replicate 400 (replicate 640 (Fl.Finite (13 # 100))))
           220 100 320 200
           ltac:(reflexivity) ltac:(reflexivity) ltac:(reflexivity)
           ltac:(apply Forall_forall; intros row Hrow;
                 apply elem_of_replicate in Hrow as [-> _]; reflexivity)
           ltac:(vm_compute; reflexivity) ltac:(vm_compute; reflexivity)).
  unfold Oak.height. lia.
Defined.

(** ** The confidence shown (lines 61, 148 and 153) *)

Section PercentFacts.

Variable rnd : Q -> Q.
Hypothesis Hrnd : Fl.standard_model rnd.

(** X16: the percentage shown never decreases when the confidence grows,
    and a confidence between 0 and 1 is shown as an integer between 0 and
    100.  A confidence that passed the threshold of 0.5 is shown as at least
    50, and the largest single precision value below 1 (and anything
    smaller) as at most 99. *)
Theorem percent_monotone (d1 d2 : Detection) :
  (0 <= confidence d1)%Q -> (confidence d1 <= confidence d2)%Q ->
  (confidence d2 <= 1)%Q ->
  0 <= percent rnd d1 <= percent rnd d2 /\ percent rnd d2 <= 100 /\
  ((1 # 2 <= confidence d1)%Q -> 50 <= percent rnd d1) /\
  ((confidence d2 <= 1 - (1 # 2 ^ 24))%Q -> percent rnd d2 <= 99).
Proof.
  intros C0 C12 C1. unfold percent.
  assert (forall z : Z, Z.abs z <= 2 ^ 53 -> forall x, (x <= inject_Z z)%Q ->
            (rnd x <= inject_Z z)%Q) as Up.
  { intros z Hz x Hx. rewrite <- (rnd_int rnd Hrnd z Hz). now apply (Fl.rnd_mono _ Hrnd). }
  assert (forall z : Z, Z.abs z <= 2 ^ 53 -> forall x, (inject_Z z <= x)%Q ->
            (inject_Z z <= rnd x)%Q) as Lo.
  { intros z Hz x Hx. rewrite <- (rnd_int rnd Hrnd z Hz). now apply (Fl.rnd_mono _ Hrnd). }
  assert (0 <= rnd (confidence d1 * 100))%Q as P1
    by (apply (Lo 0); [cbn; lia | change (inject_Z 0) with 0%Q; lra]).
  assert (rnd (confidence d1 * 100) <= rnd (confidence d2 * 100))%Q as M
    by (apply (Fl.rnd_mono _ Hrnd); lra).
  repeat apply conj.
  - now apply Qtrunc_bounds.
  - now apply Qtrunc_mono.
  - apply Qtrunc_le_int; [lra|]. apply Up; [cbn; lia | change (inject_Z 100) with 100%Q; lra].
  - intros H. pose proof (Lo 50 ltac:(cbn; lia) (confidence d1 * 100)%Q
                            ltac:(change (inject_Z 50) with 50%Q; lra)) as L.
    pose proof (Qtrunc_mono (inject_Z 50) _ ltac:(discriminate) L) as T.
    now rewrite Qtrunc_int in T.
  - intros H.
    destruct (rnd_bounds rnd Hrnd (confidence d2 * 100) ltac:(lra)) as [_ B].
    assert (rnd (confidence d2 * 100) < inject_Z 100)%Q as S.
    { change (inject_Z 100) with 100%Q. eps_numeral.
      change (1 # 2 ^ 24) with (1 # 16777216) in H. lra. }
    assert (0 <= rnd (confidence d2 * 100))%Q as P2 by lra.
    pose proof (Qtrunc_lt_int _ 100 P2 S). lia.
Qed.

End PercentFacts.

Lemma percent_monotone_witness :
  0 <= percent Fl.binary64 (Oak.person (1 # 2) 0 0 0 0)
    <= percent Fl.binary64 (Oak.person (3 # 4) 0 0 0 0).
Proof.
  apply (percent_monotone Fl.binary64 binary64_standard_model
           (Oak.person (1 # 2) 0 0 0 0) (Oak.person (3 # 4) 0 0 0 0));
    vm_compute; discriminate.
Defined.

(** ** Painted pixels *)

Lemma map_at_lookup {A B} (f : Z -> A -> B) (i : Z) (l : list A) (n : nat) :
  map_at f i l !! n = f (i + Z.of_nat n) <$> l !! n.
Proof.
  revert i n. induction l as [|a l IH]; intros i [|n]; try reflexivity.
  - simpl. now rewrite Z.add_0_r.
  - cbn [map_at lookup list_lookup]. rewrite IH. do 2 f_equal. lia.
Qed.

Lemma map_at_length {A B} (f : Z -> A -> B) (i : Z) (l : list A) :
  length (map_at f i l) = length l.
Proof. revert i. induction l as [|a l IH]; intros i; simpl; [reflexivity | now rewrite IH]. Qed.

Lemma paint_pixel (c : color) (pts : list point) (img : image) (r col : nat) :
  pixel (paint c pts img) r col
  = (fun p => if covers pts (Z.of_nat col) (Z.of_nat r) then c else p) <$> pixel img r col.
Proof.
  unfold pixel, paint. rewrite map_at_lookup.
  destruct (img !! r) as [row|]; [|reflexivity]. cbn.
  now rewrite map_at_lookup.
Qed.

Lemma paint_row_lengths (c : color) (pts : list point) (img : image) :
  row_lengths (paint c pts img) = row_lengths img.
Proof.
  unfold row_lengths, paint. generalize 0 at 2. 
  induction img as [|row img IH]; intros i; [reflexivity|].
  cbn [map_at fmap list_fmap]. f_equal; [apply map_at_length | apply IH].
Qed.

(** ** What the calls of the overlay are *)

Lemma omap_nil_of_forall {A B} (f : A -> option B) (l : list A) :
  Forall (fun a => f a = None) l -> omap f l = [].
Proof. induction 1 as [|a l Ha _ IH]; [reflexivity|]. cbn. now rewrite Ha. Qed.

Section OverlayCalls.

Variable rnd : Q -> Q.
Variable resolutionWidth resolutionHeight : Z.
Variable rectangle_pixels : point -> point -> Z -> list point.
Variable text_pixels : string -> point -> list point.

#[local] Abbreviation summary :=
  (overlay rnd resolutionWidth resolutionHeight rectangle_pixels text_pixels).
#[local] Abbreviation summaries :=
  (overlays rnd resolutionWidth resolutionHeight rectangle_pixels text_pixels).

Lemma overlay_calls (dc : depth_t) (d : Detection) :
  Forall (fun e => rendering_event e /\ forall img, e <> Imshow img) (summary dc d).2.*1.
Proof.
  unfold overlay.
  destruct (py_getitem labelMap (label d)) as [name|]; [|constructor].
  destruct (bool_decide (name ∈ includedLabels)); [|constructor].
  destruct (pixel_box rnd resolutionWidth resolutionHeight d)
    as [|b0 [|b1 [|b2 [|b3 [|? ?]]]]]; try constructor.
  destruct dc as [|a]; [|destruct (py_getitem2 a _ _) as [v|]];
    cbn [fst snd fmap list_fmap app];
    repeat (constructor; [split; [cbn; eauto | discriminate]|]); constructor.
Qed.

Lemma overlays_calls (dc : depth_t) (ds : list Detection) :
  Forall (fun e => rendering_event e /\ forall img, e <> Imshow img) (summaries dc ds).2.*1.
Proof.
  induction ds as [|d ds IH]; [constructor|]. cbn [overlays].
  pose proof (overlay_calls dc d) as H.
  destruct (summary dc d) as [[[]|e] calls]; cbn [snd] in *; [|exact H].
  destruct (summaries dc ds) as [o calls']. cbn [snd] in *.
  rewrite fmap_app. now apply Forall_app.
Qed.

(** The overlay raises [TypeError] only where there is no depth map. *)
Lemma overlays_outcome (a : list (list Fl.np_float)) (ds : list Detection) :
  (summaries (DepthArr a) ds).1 = Ok tt \/ (summaries (DepthArr a) ds).1 = Raise IndexError.
Proof.
  induction ds as [|d ds IH]; [now left|]. cbn [overlays].
  assert ((summary (DepthArr a) d).1 = Ok tt \/ (summary (DepthArr a) d).1 = Raise IndexError) as H.
  { unfold overlay.
    destruct (py_getitem labelMap (label d)) as [name|]; [|now right].
    destruct (bool_decide (name ∈ includedLabels)); [|now left].
    destruct (pixel_box rnd resolutionWidth resolutionHeight d)
      as [|b0 [|b1 [|b2 [|b3 [|? ?]]]]]; try (now right).
    destruct (py_getitem2 a _ _); [now left | now right]. }
  destruct (summary (DepthArr a) d) as [[[]|e] calls]; cbn [fst] in *.
  - destruct (summaries (DepthArr a) ds) as [o calls']. exact IH.
  - destruct H as [H|H]; [discriminate | now right].
Qed.

End OverlayCalls.

(** ** Rendering as a whole (lines 141-155) *)

Section RenderingFacts.

Variable rnd : Q -> Q.
Variable resolutionWidth resolutionHeight : Z.
Variable rectangle_pixels : point -> point -> Z -> list point.
Variable text_pixels : string -> point -> list point.

#[local] Abbreviation run_detection :=
  (render_detection rnd resolutionWidth resolutionHeight rectangle_pixels text_pixels).
#[local] Abbreviation run_render :=
  (render rnd resolutionWidth resolutionHeight rectangle_pixels text_pixels).
#[local] Abbreviation summaries :=
  (overlays rnd resolutionWidth resolutionHeight rectangle_pixels text_pixels).

Lemma shown_of_app (l1 l2 : list event) : shown_of (l1 ++ l2) = shown_of l1 ++ shown_of l2.
Proof. apply omap_app. Qed.

Lemma shown_of_calls (dc : depth_t) (ds : list Detection) :
  shown_of (summaries dc ds).2.*1 = [].
Proof.
  apply omap_nil_of_forall.
  eapply Forall_impl; [apply overlays_calls|].
  intros [] [_ H]; try reflexivity. now destruct (H img).
Qed.

Lemma render_log (w : world) :
  exists calls,
    log (run_render w).2 = log w ++ calls /\
    Forall rendering_event calls /\
    shown_of calls =
      match (run_render w).1, frameDisparity (vars (run_render w).2) with
      | Ok _, Some img' => [img']
      | _, _ => []
      end.
Proof.
  destruct (frameDisparity (vars w)) as [img|] eqn:E.
  - rewrite (render_present _ _ _ _ _ w img E). cbv zeta.
    pose proof (overlays_calls rnd resolutionWidth resolutionHeight rectangle_pixels
                  text_pixels (depth_calculated (vars w)) (detections (vars w))) as F.
    pose proof (shown_of_calls (depth_calculated (vars w)) (detections (vars w))) as S.
    destruct (summaries (depth_calculated (vars w)) (detections (vars w))) as [[[]|e] calls];
      cbn [fst snd] in *.
    + eexists. split; [apply annotate_log|]. split.
      * rewrite fmap_app. apply Forall_app. split.
        -- eapply Forall_impl; [exact F|]. now intros ? [? _].
        -- repeat constructor.
      * rewrite (annotate_buffer _ w img E), !fmap_app, concat_app, shown_of_app, S.
        cbn. now rewrite app_nil_r.
    + eexists. split; [apply annotate_log|]. split; [|exact S].
      eapply Forall_impl; [exact F|]. now intros ? [? _].
  - rewrite (render_absent _ _ _ _ _ w E). cbn [fst snd]. rewrite E.
    exists []. rewrite app_nil_r. repeat split. constructor.
Qed.

Lemma render_buffer (w : world) :
  exists pts,
    frameDisparity (vars (run_render w).2) = paint green pts <$> frameDisparity (vars w).
Proof.
  destruct (frameDisparity (vars w)) as [img|] eqn:E.
  - rewrite (render_present _ _ _ _ _ w img E). cbv zeta.
    destruct (summaries _ _).1 as [[]|e]; cbn [snd];
      eexists; rewrite annotate_frameDisparity, E; reflexivity.
  - rewrite (render_absent _ _ _ _ _ w E). cbn [snd]. rewrite E. now exists [].
Qed.

(** X17: a rendering shows at most one frame.  It shows exactly the buffer
    as it is after the drawing when there is a buffer and no detection
    raised; it shows nothing when no disparity frame has arrived or when a
    detection raised. *)
Theorem render_shows (w : world) :
  shown_of (log (run_render w).2) =
  shown_of (log w) ++
  match (run_render w).1, frameDisparity (vars (run_render w).2) with
  | Ok _, Some img' => [img']
  | _, _ => []
  end.
Proof.
  destruct (render_log w) as (calls & L & _ & S).
  now rewrite L, shown_of_app, S.
Qed.

Lemma for_each_app {A} (l1 l2 : list A) (body : A -> M unit) (w : world) :
  for_each (l1 ++ l2) body w =
  match for_each l1 body w with
  | (Ok _, w1) => for_each l2 body w1
  | (Raise e, w1) => (Raise e, w1)
  end.
Proof.
  revert w. induction l1 as [|a l1 IH]; intros w; [reflexivity|].
  cbn [app for_each]. unfold mbind, M_bind.
  destruct (body a w) as [[[]|e] w1]; [apply IH | reflexivity].
Qed.

(** X10: the [for] loop over the detections stops at the first detection
    that raises.  The detections after it are not looked at, the exception
    leaves the rendering, and no frame is shown in that iteration. *)
Theorem rendering_stops_at_exception (w : world) (ds1 ds2 : list Detection)
    (d : Detection) (e : exn) :
  (for_each ds1 run_detection w).1 = Ok tt ->
  (run_detection d (for_each ds1 run_detection w).2).1 = Raise e ->
  for_each (ds1 ++ d :: ds2) run_detection w
  = (Raise e, (run_detection d (for_each ds1 run_detection w).2).2) /\
  (detections (vars w) = ds1 ++ d :: ds2 -> is_Some (frameDisparity (vars w)) ->
   (run_render w).1 = Raise e /\
   shown_of (log (run_render w).2) = shown_of (log w)).
Proof.
  intros H1 H2.
  assert (for_each (ds1 ++ d :: ds2) run_detection w
          = (Raise e, (run_detection d (for_each ds1 run_detection w).2).2)) as F.
  { rewrite for_each_app. destruct (for_each ds1 run_detection w) as [[[]|e1] w1];
      cbn [fst snd] in *; [|discriminate].
    cbn [for_each]. unfold mbind, M_bind.
    destruct (run_detection d w1) as [[[]|e2] w2]; cbn [fst snd] in *; congruence. }
  split; [exact F|]. intros D [img E].
  assert ((run_render w).1 = Raise e) as R.
  { unfold render. erewrite bind_ok by reflexivity. rewrite E, D.
    erewrite bind_raise by exact F. reflexivity. }
  split; [exact R|]. destruct (render_log w) as (calls & L & _ & S).
  rewrite R in S. now rewrite L, shown_of_app, S, app_nil_r.
Qed.

End RenderingFacts.

(** ** Iterations and runs (lines 111-162) *)

Lemma writes_of_app (l1 l2 : list event) : writes_of (l1 ++ l2) = writes_of l1 ++ writes_of l2.
Proof. apply omap_app. Qed.

Lemma writes_of_writes (l : list (list Z)) : writes_of (FileWrite <$> l) = l.
Proof. induction l as [|x l IH]; [reflexivity|]. cbn. now rewrite <- IH at 2. Qed.

Lemma writes_of_rendering (l : list event) : Forall rendering_event l -> writes_of l = [].
Proof.
  intros F. apply omap_nil_of_forall. eapply Forall_impl; [exact F|].
  now intros [].
Qed.

Section RunFacts.

Variable rnd : Q -> Q.
Variable maxDisparity : Q.
Variable focal_length : Q.
Variable resolutionWidth resolutionHeight : Z.
Variable colormap_jet : Z -> color.
Variable rectangle_pixels : point -> point -> Z -> list point.
Variable text_pixels : string -> point -> list point.

#[local] Abbreviation run_poll := (poll rnd maxDisparity focal_length colormap_jet).
#[local] Abbreviation run_render :=
  (render rnd resolutionWidth resolutionHeight rectangle_pixels text_pixels).
#[local] Abbreviation run_tick :=
  (tick rnd maxDisparity focal_length resolutionWidth resolutionHeight
        colormap_jet rectangle_pixels text_pixels).
#[local] Abbreviation run_loop :=
  (loop rnd maxDisparity focal_length resolutionWidth resolutionHeight
        colormap_jet rectangle_pixels text_pixels).
#[local] Abbreviation run_main :=
  (main rnd maxDisparity focal_length resolutionWidth resolutionHeight
        colormap_jet rectangle_pixels text_pixels).
#[local] Abbreviation summaries :=
  (overlays rnd resolutionWidth resolutionHeight rectangle_pixels text_pixels).

(** The outcome of an iteration and the variables it leaves are those of
    its rendering; its log is the log of the polling followed by the calls
    of the rendering. *)
Lemma tick_log (i : TickIn) (w : world) :
  exists calls,
    log (run_tick i w).2 = log w ++ (FileWrite <$> h265 i) ++ calls /\
    Forall rendering_event calls.
Proof.
  rewrite tick_world. destruct (poll_run rnd maxDisparity focal_length colormap_jet i w)
    as (s & R & _).
  destruct (render_log rnd resolutionWidth resolutionHeight rectangle_pixels text_pixels
              (run_poll i w).2) as (calls & L & F & _).
  exists calls. rewrite L, R. cbn [snd log]. now rewrite <- app_assoc.
Qed.

Lemma tick_outcome (i : TickIn) (w : world) :
  (run_tick i w).1 =
  match (run_render (run_poll i w).2).1 with
  | Ok _ => Ok (waitKey i =? ord_q)
  | Raise e => Raise e
  end.
Proof. rewrite tick_unfold. now destruct (run_render _) as [[[]|e] w2]. Qed.

Lemma render_depends (w1 w2 : world) :
  frameDisparity (vars w1) = frameDisparity (vars w2) ->
  depth_calculated (vars w1) = depth_calculated (vars w2) ->
  detections (vars w1) = detections (vars w2) ->
  (run_render w1).1 = (run_render w2).1 /\
  frameDisparity (vars (run_render w1).2) = frameDisparity (vars (run_render w2).2).
Proof.
  intros B D L. destruct (frameDisparity (vars w2)) as [img|] eqn:E.
  - rewrite (render_present _ _ _ _ _ w1 img B), (render_present _ _ _ _ _ w2 img E).
    cbv zeta. rewrite D, L.
    destruct (summaries _ _) as [[[]|e] calls]; cbn [fst snd];
      (split; [reflexivity|]); now rewrite !(annotate_buffer _ _ img).
  - rewrite (render_absent _ _ _ _ _ w1 B), (render_absent _ _ _ _ _ w2 E).
    cbn [fst snd]. now rewrite B, E.
Qed.



(** X11: a new disparity frame replaces the buffer.  After an iteration that
    received one, the buffer, the depth map and the outcome do not depend on
    what the buffer, the depth map or the two cached frames were before: the
    drawings of earlier iterations are gone. *)
Theorem new_frame_replaces_buffer (i : TickIn) (w w' : world) :
  is_Some (inDisparity i) ->
  detections (vars w) = detections (vars w') ->
  (run_tick i w).1 = (run_tick i w').1 /\
  frameDisparity (vars (run_tick i w).2) = frameDisparity (vars (run_tick i w').2) /\
  depth_calculated (vars (run_tick i w).2) = depth_calculated (vars (run_tick i w').2).
Proof.
  intros [raw N] D.
  destruct (poll_run rnd maxDisparity focal_length colormap_jet i w)
    as (s & R & _ & _ & Dt & Fd & Dc).
  destruct (poll_run rnd maxDisparity focal_length colormap_jet i w')
    as (s' & R' & _ & _ & Dt' & Fd' & Dc').
  rewrite N in Fd, Fd', Dc, Dc'. cbn in Fd, Fd', Dc, Dc'.
  rewrite !tick_outcome, !tick_world, R, R'. cbn [snd].
  set (v := {| vars := s; log := _ |}). set (v' := {| vars := s'; log := _ |}).
  destruct (render_depends v v') as [O B]; cbn [vars v v'];
    [congruence | congruence | rewrite Dt, Dt', D; reflexivity |].
  rewrite O. split; [reflexivity|]. split; [exact B|].
  pose proof (render_other_vars rnd resolutionWidth resolutionHeight rectangle_pixels
                text_pixels v) as (_ & _ & _ & G).
  pose proof (render_other_vars rnd resolutionWidth resolutionHeight rectangle_pixels
                text_pixels v') as (_ & _ & _ & G').
  rewrite G, G'. cbn [vars v v']. congruence.
Qed.

(** X18: without a new disparity frame the buffer is drawn over, not
    rebuilt.  After such an iteration it has the same size, every pixel that
    was green is still green, and every other pixel is either unchanged or
    has turned green: the boxes and texts of earlier iterations stay. *)
Theorem stale_buffer_accumulates (i : TickIn) (w : world) (img : image) :
  inDisparity i = None ->
  frameDisparity (vars w) = Some img ->
  exists img',
    frameDisparity (vars (run_tick i w).2) = Some img' /\
    row_lengths img' = row_lengths img /\
    (forall r c, pixel img r c = Some green -> pixel img' r c = Some green) /\
    (forall r c p, pixel img' r c = Some p -> p = green \/ pixel img r c = Some p).
Proof.
  intros N E.
  destruct (poll_run rnd maxDisparity focal_length colormap_jet i w)
    as (s & R & _ & _ & _ & Fd & _).
  rewrite N in Fd. cbn in Fd. rewrite E in Fd.
  destruct (render_buffer rnd resolutionWidth resolutionHeight rectangle_pixels text_pixels
              (run_poll i w).2) as [pts B].
  rewrite tick_world, B, R. cbn [snd vars]. rewrite Fd. cbn.
  eexists. split; [reflexivity|]. split; [apply paint_row_lengths|]. split.
  - intros r c P. rewrite paint_pixel, P. cbn. now destruct (covers pts _ _).
  - intros r c p. rewrite paint_pixel. intros P.
    apply fmap_Some in P as (p0 & P0 & ->).
    destruct (covers pts _ _); [now left | now right].
Qed.

End RunFacts.



Section ScriptRuns.

Variable rnd : Q -> Q.
Variable maxDisparity : Q.
Variable focal_length : Q.
Variable resolutionWidth resolutionHeight : Z.
Variable colormap_jet : Z -> color.
Variable rectangle_pixels : point -> point -> Z -> list point.
Variable text_pixels : string -> point -> list point.

#[local] Abbreviation run_poll := (poll rnd maxDisparity focal_length colormap_jet).
#[local] Abbreviation run_render :=
  (render rnd resolutionWidth resolutionHeight rectangle_pixels text_pixels).
#[local] Abbreviation run_tick :=
  (tick rnd maxDisparity focal_length resolutionWidth resolutionHeight
        colormap_jet rectangle_pixels text_pixels).
#[local] Abbreviation run_loop :=
  (loop rnd maxDisparity focal_length resolutionWidth resolutionHeight
        colormap_jet rectangle_pixels text_pixels).
#[local] Abbreviation run_main :=
  (main rnd maxDisparity focal_length resolutionWidth resolutionHeight
        colormap_jet rectangle_pixels text_pixels).
#[local] Abbreviation summaries :=
  (overlays rnd resolutionWidth resolutionHeight rectangle_pixels text_pixels).
#[local] Abbreviation tick_log' :=
  (tick_log rnd maxDisparity focal_length resolutionWidth resolutionHeight
            colormap_jet rectangle_pixels text_pixels).

(** The log of the loop: the packets of the iterations it started, whole and
    in order, between calls of the rendering.  The loop started [n]
    iterations: it is still running after fewer, and if it has ended it
    ended in iteration [n]. *)
Lemma loop_log (ins : list TickIn) (w : world) :
  exists (n : nat) (evs : list event),
    (n <= length ins)%nat /\
    log (run_loop ins w).2 = log w ++ evs /\
    writes_of evs = concat (h265 <$> take n ins) /\
    Forall (fun e => (exists data, e = FileWrite data) \/ rendering_event e) evs /\
    ((run_loop ins w).1 = Ok false -> n = length ins) /\
    (forall m : nat, (m < n)%nat -> (run_loop (take m ins) w).1 = Ok false) /\
    ((run_loop ins w).1 <> Ok false -> run_loop (take n ins) w = run_loop ins w).
Proof.
  revert w. induction ins as [|i ins IH]; intros w.
  - exists 0%nat, []. cbn. rewrite app_nil_r. repeat split; auto. intros m Hm. lia.
  - destruct (tick_log' i w) as (calls & L & F).
    assert (Forall (fun e => (exists data, e = FileWrite data) \/ rendering_event e)
              ((FileWrite <$> h265 i) ++ calls)) as F1.
    { apply Forall_app. split.
      - apply Forall_fmap, Forall_forall. intros data _. left. now exists data.
      - eapply Forall_impl; [exact F|]. now right. }
    assert (writes_of ((FileWrite <$> h265 i) ++ calls) = h265 i) as W1.
    { now rewrite writes_of_app, writes_of_writes, (writes_of_rendering calls F), app_nil_r. }
    assert (forall m : nat, (m < 1)%nat -> (run_loop (take m (i :: ins)) w).1 = Ok false) as First.
    { intros m Hm. replace m with 0%nat by lia. reflexivity. }
    cbn [loop]. unfold mbind, M_bind.
    destruct (run_tick i w) as [[[|]|e] w1] eqn:T; cbn [snd fst] in L |- *.
    + exists 1%nat, ((FileWrite <$> h265 i) ++ calls).
      split; [cbn; lia|]. split; [exact L|]. split.
      { cbn [take fmap list_fmap concat]. rewrite take_0. cbn. now rewrite app_nil_r. }
      split; [exact F1|]. split; [discriminate|]. split; [exact First|].
      intros _. cbn [take]. rewrite take_0. cbn [loop]. unfold mbind, M_bind.
      now rewrite T.
    + destruct (IH w1) as (n & evs & Hn & L' & W' & F' & E' & Lt & Eq).
      exists (S n), ((FileWrite <$> h265 i) ++ calls ++ evs).
      split; [cbn; lia|]. split; [rewrite L', L, <- !app_assoc; reflexivity|].
      split; [rewrite app_assoc, writes_of_app, W1, W'; reflexivity|].
      split; [rewrite app_assoc; now apply Forall_app|].
      split; [intros O; cbn; f_equal; auto|]. split.
      * intros [|m] Hm; [reflexivity|]. cbn [take loop]. unfold mbind, M_bind.
        rewrite T. apply Lt. lia.
      * intros O. cbn [take loop]. unfold mbind, M_bind. rewrite T. now apply Eq.
    + exists 1%nat, ((FileWrite <$> h265 i) ++ calls).
      split; [cbn; lia|]. split; [exact L|]. split.
      { cbn [take fmap list_fmap concat]. rewrite take_0. cbn. now rewrite app_nil_r. }
      split; [exact F1|]. split; [discriminate|]. split; [exact First|].
      intros _. cbn [take]. rewrite take_0. cbn [loop]. unfold mbind, M_bind.
      now rewrite T.
Qed.

(** X12: the file receives the encoder's packets in arrival order, each
    once, and nothing else: what a run has written is the concatenation of
    the packets of the [n] iterations it started.  That [n] is the number
    of iterations started is part of the statement: given the readings of
    fewer than [n] iterations the loop is still running; if the run has
    ended, by [q] or by an exception, it has ended in iteration [n], the
    readings after the first [n] making no difference; and if the loop is
    still running, [n] counts all the iterations given.  So an iteration
    that raises or that reads [q] has written its packets before. *)
Theorem file_receives_packets_in_order (ins : list TickIn) :
  exists n : nat,
    (n <= length ins)%nat /\
    writes_of (log (run_main ins initial_world).2) = concat (h265 <$> take n ins) /\
    (forall m : nat, (m < n)%nat -> (run_main (take m ins) initial_world).1 = Ok false) /\
    ((run_main ins initial_world).1 <> Ok false ->
     run_main (take n ins) initial_world = run_main ins initial_world) /\
    ((run_main ins initial_world).1 = Ok false -> n = length ins).
Proof.
  destruct (loop_log ins {| vars := vars initial_world;
                            log := (log initial_world ++ [FileOpen]) ++ [NamedWindow] |})
    as (n & evs & Hn & L & W & _ & E & Lt & Eq).
  exists n. split; [exact Hn|]. split; [|split; [|split]].
  - rewrite main_unfold.
    destruct (run_loop ins _) as [[[|]|e] w']; cbn [fst snd log] in *;
      rewrite L, !writes_of_app, W; cbn; now rewrite ?app_nil_r.
  - intros m Hm. specialize (Lt m Hm). rewrite main_unfold.
    destruct (run_loop (take m ins) _) as [[[|]|e] w']; cbn [fst] in *;
      [discriminate | reflexivity | discriminate].
  - intros O. rewrite !main_unfold. rewrite Eq; [reflexivity|].
    rewrite main_unfold in O.
    destruct (run_loop ins _) as [[[|]|e] w']; cbn [fst] in *; congruence.
  - intros O. apply E. rewrite main_unfold in O.
    destruct (run_loop ins _) as [[[|]|e] w']; cbn [fst] in *; congruence.
Qed.

(** X13: the closing messages are printed exactly when the loop was left
    with [q].  A run that ends with an exception, or that is still in the
    loop, has not printed them. *)
Theorem closing_messages_iff_quit (ins : list TickIn) :
  let r := run_main ins initial_world in
  Print "To view the encoded data, convert the stream file (.h265) into a video file (.mp4) using a command below:"
    ∈ log r.2
  <-> r.1 = Ok true.
Proof.
  intros r. unfold r. rewrite main_unfold.
  destruct (loop_log ins {| vars := vars initial_world;
                            log := (log initial_world ++ [FileOpen]) ++ [NamedWindow] |})
    as (n & evs & _ & L & _ & F & _).
  assert (Print "To view the encoded data, convert the stream file (.h265) into a video file (.mp4) using a command below:"
            ∉ ([FileOpen; NamedWindow] ++ evs)) as Not.
  { intros Hin. apply elem_of_app in Hin as [Hin|Hin].
    - in_cases Hin; discriminate.
    - rewrite Forall_forall in F. destruct (F _ Hin) as [[data H]|H]; [discriminate|].
      cbn in H. destruct H as (name & v & pct & H). discriminate H. }
  destruct (run_loop ins _) as [[[|]|e] w']; cbn [fst snd log] in *.
  - split; [reflexivity|]. intros _. rewrite !elem_of_app, !elem_of_cons. auto.
  - split; [|discriminate]. intros Hin. rewrite L in Hin. contradiction.
  - split; [|discriminate]. intros Hin. rewrite L in Hin. contradiction.
Qed.

End ScriptRuns.

(** ** What a run never does *)

Section Invariants.

Variable rnd : Q -> Q.
Variable maxDisparity : Q.
Variable focal_length : Q.
Variable resolutionWidth resolutionHeight : Z.
Variable colormap_jet : Z -> color.
Variable rectangle_pixels : point -> point -> Z -> list point.
Variable text_pixels : string -> point -> list point.

#[local] Abbreviation run_poll := (poll rnd maxDisparity focal_length colormap_jet).
#[local] Abbreviation run_render :=
  (render rnd resolutionWidth resolutionHeight rectangle_pixels text_pixels).
#[local] Abbreviation run_tick :=
  (tick rnd maxDisparity focal_length resolutionWidth resolutionHeight
        colormap_jet rectangle_pixels text_pixels).
#[local] Abbreviation run_loop :=
  (loop rnd maxDisparity focal_length resolutionWidth resolutionHeight
        colormap_jet rectangle_pixels text_pixels).
#[local] Abbreviation run_main :=
  (main rnd maxDisparity focal_length resolutionWidth resolutionHeight
        colormap_jet rectangle_pixels text_pixels).
#[local] Abbreviation summaries :=
  (overlays rnd resolutionWidth resolutionHeight rectangle_pixels text_pixels).

Lemma poll_coherent (i : TickIn) (w : world) :
  coherent (vars w) -> coherent (vars (run_poll i w).2).
Proof.
  intros C. destruct (poll_run rnd maxDisparity focal_length colormap_jet i w)
    as (s & R & _ & _ & _ & Fd & Dc).
  rewrite R. cbn [snd vars]. unfold coherent in *. rewrite Fd, Dc.
  destruct (inDisparity i) as [raw|]; cbn; [|exact C].
  unfold applyColorMap. now rewrite depth_of_elementwise, !row_lengths_elementwise.
Qed.

Lemma render_coherent (w : world) :
  coherent (vars w) ->
  coherent (vars (run_render w).2) /\
  ((run_render w).1 = Ok tt \/ (run_render w).1 = Raise IndexError).
Proof.
  intros C. unfold coherent in *.
  pose proof (render_other_vars rnd resolutionWidth resolutionHeight rectangle_pixels
                text_pixels w) as (_ & _ & _ & D).
  destruct (render_buffer rnd resolutionWidth resolutionHeight rectangle_pixels text_pixels w)
    as [pts B].
  rewrite B, D.
  destruct (frameDisparity (vars w)) as [img|] eqn:E,
           (depth_calculated (vars w)) as [|a] eqn:DC; try contradiction.
  - cbn. split; [now rewrite paint_row_lengths|].
    rewrite (render_present _ _ _ _ _ w img E). cbv zeta. rewrite DC.
    destruct (overlays_outcome rnd resolutionWidth resolutionHeight rectangle_pixels
                text_pixels a (detections (vars w))) as [O|O]; rewrite O; auto.
  - cbn. split; [exact I|]. rewrite (render_absent _ _ _ _ _ w E). now left.
Qed.

Lemma tick_coherent (i : TickIn) (w : world) :
  coherent (vars w) ->
  coherent (vars (run_tick i w).2) /\
  ((exists b, (run_tick i w).1 = Ok b) \/ (run_tick i w).1 = Raise IndexError).
Proof.
  intros C. rewrite tick_world, tick_outcome.
  destruct (render_coherent _ (poll_coherent i w C)) as [C' [O|O]]; rewrite O; eauto.
Qed.

Lemma loop_coherent (ins : list TickIn) (w : world) :
  coherent (vars w) ->
  coherent (vars (run_loop ins w).2) /\
  ((exists b, (run_loop ins w).1 = Ok b) \/ (run_loop ins w).1 = Raise IndexError).
Proof.
  revert w. induction ins as [|i ins IH]; intros w C; [cbn; eauto|].
  cbn [loop]. unfold mbind, M_bind.
  destruct (tick_coherent i w C) as [C1 O].
  destruct (run_tick i w) as [[[|]|e] w1]; cbn [fst snd] in *.
  - eauto.
  - now apply IH.
  - destruct O as [[b O]|O]; [discriminate | auto].
Qed.

(** X14: the buffer and the depth map are always set together and have the
    same shape, in every state a run of the script reaches.  So the depth
    lookup is never applied to the integer [depth_calculated] starts as, and
    nothing is drawn on an absent frame: the only exception a run can end
    with is [IndexError]. *)
Theorem run_keeps_buffer_and_depth_together (ins : list TickIn) :
  let r := run_main ins initial_world in
  coherent (vars r.2) /\ forall e, r.1 = Raise e -> e = IndexError.
Proof.
  intros r. unfold r. rewrite main_unfold.
  destruct (loop_coherent ins
              {| vars := vars initial_world;
                 log := (log initial_world ++ [FileOpen]) ++ [NamedWindow] |} I) as [C O].
  destruct (run_loop ins _) as [[[|]|e] w']; cbn [fst snd vars] in *;
    (split; [exact C|]); intros e' E; try discriminate.
  destruct O as [[b O]|O]; congruence.
Qed.

Hypothesis Hrnd : Fl.standard_model rnd.
Hypothesis wider_than_tall : 0 < resolutionHeight < resolutionWidth.
Hypothesis resolution_small : resolutionHeight <= 2 ^ 53.

Lemma overlays_safe (a : list (list Fl.np_float)) (ds : list Detection) :
  sensor_shaped resolutionHeight resolutionWidth a ->
  Forall (fun d => safe_detection rnd resolutionWidth resolutionHeight d = true) ds ->
  (summaries (DepthArr a) ds).1 = Ok tt.
Proof.
  intros [Rows Cols] F. induction F as [|d ds Hd _ IH]; [reflexivity|].
  cbn [overlays].
  assert ((overlay rnd resolutionWidth resolutionHeight rectangle_pixels text_pixels
             (DepthArr a) d).1 = Ok tt) as O.
  { unfold safe_detection in Hd. apply andb_prop in Hd as [R S].
    apply andb_prop in R as [R1 R2]. apply Z.leb_le in R1, R2.
    destruct (py_getitem_wraps labelMap (label d)) as [name L];
      [change (Z.of_nat (length labelMap)) with 21; lia|].
    unfold overlay. unfold label_allowed in S. rewrite L in *.
    destruct (bool_decide (name ∈ includedLabels)); [|reflexivity].
    destruct (pixel_box rnd resolutionWidth resolutionHeight d)
      as [|b0 [|b1 [|b2 [|b3 [|? ?]]]]] eqn:B; try discriminate.
    cbn [negb orb] in S.
    destruct (center_bounds rnd Hrnd resolutionWidth resolutionHeight wider_than_tall
                resolution_small d b0 b1 b2 b3 B) as (Cx & Cy & Edge).
    assert (int_half (b1 + b3) <> resolutionHeight) as NE.
    { rewrite Edge. intros [-> ->]. rewrite !Z.eqb_refl in S. discriminate. }
    destruct (py_getitem2_in_range a resolutionHeight resolutionWidth
                (int_half (b1 + b3)) (int_half (b0 + b2)) Rows Cols ltac:(lia) Cx) as [v ->].
    reflexivity. }
  destruct (overlay _ _ _ _ _ (DepthArr a) d) as [[[]|e] calls]; cbn [fst] in *;
    [|discriminate].
  now destruct (summaries (DepthArr a) ds).
Qed.

(** The state of a run whose readings are well formed. *)
#[local] Abbreviation healthy w :=
  (Forall (fun d => safe_detection rnd resolutionWidth resolutionHeight d = true)
          (detections (vars w)) /\
   match frameDisparity (vars w), depth_calculated (vars w) with
   | None, _ => True
   | Some _, DepthArr a => sensor_shaped resolutionHeight resolutionWidth a
   | Some _, DepthInit => False
   end).

(** The readings of an iteration are well formed: a disparity frame has the
    size of the sensor, and every detection is safe. *)
#[local] Abbreviation well_formed i :=
  ((forall raw, inDisparity i = Some raw ->
      sensor_shaped resolutionHeight resolutionWidth raw) /\
   (forall ds, inDet i = Some ds ->
      Forall (fun d => safe_detection rnd resolutionWidth resolutionHeight d = true) ds)).

Lemma sensor_shaped_elementwise {A B} (f : A -> B) (a : list (list A)) :
  sensor_shaped resolutionHeight resolutionWidth a ->
  sensor_shaped resolutionHeight resolutionWidth (elementwise f a).
Proof.
  intros [Rows Cols]. unfold sensor_shaped, elementwise. rewrite length_fmap.
  split; [exact Rows|]. apply Forall_fmap. eapply Forall_impl; [exact Cols|].
  intros row H. cbn. now rewrite length_fmap.
Qed.

Lemma tick_healthy (i : TickIn) (w : world) :
  healthy w -> well_formed i ->
  healthy (run_tick i w).2 /\ (run_tick i w).1 = Ok (waitKey i =? ord_q).
Proof.
  intros [Sd Sh] [Wf Wd].
  destruct (poll_run rnd maxDisparity focal_length colormap_jet i w)
    as (s & R & _ & _ & Dt & Fd & Dc).
  set (w1 := (run_poll i w).2).
  assert (vars w1 = s) as V by (unfold w1; now rewrite R).
  assert (healthy w1) as [Sd1 Sh1].
  { rewrite V, Dt, Fd, Dc. split.
    - destruct (inDet i) as [ds|]; cbn; [now apply Wd | exact Sd].
    - destruct (inDisparity i) as [raw|]; cbn; [|exact Sh].
      rewrite depth_of_elementwise. do 2 apply sensor_shaped_elementwise. now apply Wf. }
  pose proof (render_other_vars rnd resolutionWidth resolutionHeight rectangle_pixels
                text_pixels w1) as (_ & _ & D1 & D2).
  destruct (render_buffer rnd resolutionWidth resolutionHeight rectangle_pixels text_pixels w1)
    as [pts B].
  rewrite tick_world, tick_outcome. fold w1. rewrite B, D1, D2.
  destruct (frameDisparity (vars w1)) as [img|] eqn:E.
  - destruct (depth_calculated (vars w1)) as [|a] eqn:DC; [contradiction|].
    rewrite (render_present _ _ _ _ _ w1 img E). cbv zeta.
    rewrite DC, (overlays_safe a (detections (vars w1)) Sh1 Sd1). cbn. auto.
  - rewrite (render_absent _ _ _ _ _ w1 E). cbn. auto.
Qed.

(** X15: a run raises nothing as long as its readings are well formed:
    every disparity frame has the size of the sensor (wider than tall),
    every detection's label indexes [labelMap], and no allowed detection has
    both y coordinates of its pixel box on the bottom edge.  The run then
    ends by [q] or is still in the loop. *)
Theorem well_formed_run_raises_nothing (ins : list TickIn) :
  Forall (fun i =>
    (forall raw, inDisparity i = Some raw ->
       sensor_shaped resolutionHeight resolutionWidth raw) /\
    (forall ds, inDet i = Some ds ->
       Forall (fun d => safe_detection rnd resolutionWidth resolutionHeight d = true) ds)) ins ->
  exists b, (run_main ins initial_world).1 = Ok b.
Proof.
  intros F. rewrite main_unfold.
  assert (forall w, healthy w -> exists b, (run_loop ins w).1 = Ok b) as Loop.
  { induction F as [|i ins Hi _ IH]; intros w Hw; [cbn; eauto|].
    cbn [loop]. unfold mbind, M_bind.
    destruct (tick_healthy i w Hw Hi) as [Hw1 O].
    destruct (run_tick i w) as [[b|e] w1]; cbn [fst snd] in *; [|discriminate].
    destruct b; [cbn; eauto | now apply IH]. }
  destruct (Loop {| vars := vars initial_world;
                    log := (log initial_world ++ [FileOpen]) ++ [NamedWindow] |}) as [b O].
  { split; [constructor | exact I]. }
  destruct (run_loop ins _) as [[[|]|e] w']; cbn [fst] in *; eauto; discriminate.
Qed.

End Invariants.

Lemma rendering_stops_at_exception_witness :
  for_each ([] ++ Oak.person (3 # 4) (1 # 2) 1 (3 # 4) 1
               :: [Oak.person (3 # 4) (1 # 4) (1 # 4) (1 # 2) (1 # 2)])
    (render_detection Fl.binary64 Oak.width Oak.height Oak.corner_pixels Oak.no_pixels)
    (Oak.after_first_frame (128, 0, 0) (Fl.Finite (13 # 100)) [])
  = (Raise IndexError,
     (render_detection Fl.binary64 Oak.width Oak.height Oak.corner_pixels Oak.no_pixels
        (Oak.person (3 # 4) (1 # 2) 1 (3 # 4) 1)
        (for_each [] (render_detection Fl.binary64 Oak.width Oak.height
                        Oak.corner_pixels Oak.no_pixels)
           (Oak.after_first_frame (128, 0, 0) (Fl.Finite (13 # 100)) [])).2).2).
Proof.
  apply (rendering_stops_at_exception Fl.binary64 Oak.width Oak.height
           Oak.corner_pixels Oak.no_pixels
           (Oak.after_first_frame (128, 0, 0) (Fl.Finite (13 # 100)) [])
           [] [Oak.person (3 # 4) (1 # 4) (1 # 4) (1 # 2) (1 # 2)]
           (Oak.person (3 # 4) (1 # 2) 1 (3 # 4) 1) IndexError).
  - reflexivity.
  - vm_compute. reflexivity.
Defined.

Lemma new_frame_replaces_buffer_witness :
  (tick Fl.binary64 96 450 Oak.width Oak.height Oak.gray_table
     Oak.corner_pixels Oak.no_pixels
     (Oak.frame_tick 48 (Oak.person (3 # 4) (1 # 4) (1 # 4) (1 # 2) (1 # 2)))
     initial_world).1
  = (tick Fl.binary64 96 450 Oak.width Oak.height Oak.gray_table
       Oak.corner_pixels Oak.no_pixels
       (Oak.frame_tick 48 (Oak.person (3 # 4) (1 # 4) (1 # 4) (1 # 2) (1 # 2)))
       (Oak.after_first_frame (128, 0, 0) (Fl.Finite (13 # 100)) [])).1.
Proof.
  apply (new_frame_replaces_buffer Fl.binary64 96 450 Oak.width Oak.height Oak.gray_table
           Oak.corner_pixels Oak.no_pixels
           (Oak.frame_tick 48 (Oak.person (3 # 4) (1 # 4) (1 # 4) (1 # 2) (1 # 2)))
           initial_world
           (Oak.after_first_frame (128, 0, 0) (Fl.Finite (13 # 100)) [])).
  - eexists. reflexivity.
  - reflexivity.
Defined.

Lemma stale_buffer_accumulates_witness :
  exists img',
    frameDisparity
      (vars (tick Fl.binary64 96 450 Oak.width Oak.height Oak.gray_table
               Oak.corner_pixels Oak.no_pixels Oak.quit_tick
               (Oak.after_first_frame (128, 0, 0) (Fl.Finite (13 # 100))
                  [Oak.person (3 # 4) (1 # 4) (1 # 4) (1 # 2) (1 # 2)])).2)
    = Some img' /\
    row_lengths img' = row_lengths (replicate 400 (replicate 640 (128, 0, 0))).
Proof.
  destruct (stale_buffer_accumulates Fl.binary64 96 450 Oak.width Oak.height Oak.gray_table
              Oak.corner_pixels Oak.no_pixels Oak.quit_tick
              (Oak.after_first_frame (128, 0, 0) (Fl.Finite (13 # 100))
                 [Oak.person (3 # 4) (1 # 4) (1 # 4) (1 # 2) (1 # 2)])
              (replicate 400 (replicate 640 (128, 0, 0)))
              ltac:(reflexivity) ltac:(reflexivity)) as (img' & B & S & _).
  exists img'. split; [exact B | exact S].
Defined.

Lemma sensor_shaped_replicate {A} (rows cols : nat) (x : A) :
  sensor_shaped (Z.of_nat rows) (Z.of_nat cols) (replicate rows (replicate cols x)).
Proof.
  split; [now rewrite length_replicate|].
  apply Forall_forall. intros row Hrow.
  apply elem_of_replicate in Hrow as [-> _]. now rewrite length_replicate.
Qed.

Lemma well_formed_run_raises_nothing_witness :
  exists b,
    (main Fl.binary64 96 450 Oak.width Oak.height Oak.gray_table
       Oak.corner_pixels Oak.no_pixels
       [Oak.frame_tick 48 (Oak.person (3 # 4) (1 # 4) (1 # 4) (1 # 2) (1 # 2));
        Oak.quit_tick]
       initial_world).1 = Ok b.
Proof.
  apply (well_formed_run_raises_nothing Fl.binary64 96 450 Oak.width Oak.height
           Oak.gray_table Oak.corner_pixels Oak.no_pixels binary64_standard_model
           ltac:(unfold Oak.width, Oak.height; lia) ltac:(unfold Oak.height; lia)).
  constructor; [split | constructor; [split | constructor]].
  - intros raw E. apply (inj Some) in E. rewrite <- E.
    exact (sensor_shaped_replicate 400 640 48).
  - intros ds E. injection E as <-. constructor; [vm_compute; reflexivity | constructor].
  - intros raw E. discriminate E.
  - intros ds E. discriminate E.
Defined.
